(** * Infinite Wiki: the App and SearchBar components

    A shallow embedding of [src/components/SearchBar.tsx] (which holds the
    SearchBar component and the App component) and of the parts of React and
    of the ECMAScript string library that this code relies on. Line numbers
    in the comments are those of that file.

    - A JavaScript string is the list of its UTF-16 code units; lengths and
      indices count code units, as [String.prototype.length] does.
    - Every [useState] setter call, service call and [console.error] made by a
      handler is recorded as an [Effect]; a handler returns the list of
      effects it performs, in program order, and [applyEffects] replays the
      setter calls on the component state.
    - An asynchronous operation ([fetchContentAndArt], [handleTranslate]) is
      a small state machine: its closure variables are a record, and each
      resumption (a stream chunk, the end of the stream, a rejection, the
      effect cleanup) is one step.
    - A Number is an IEEE 754 double: [Math.random() * UNIQUE_WORDS.length]
      is the product rounded to the nearest double, and the development is
      parametric in the subtraction of [endTime - startTime]. *)

From Stdlib Require Import NArith Ascii String QArith.
From stdpp Require Import base decidable numbers option list gmap.

#[local] Open Scope nat_scope.

(** ** JavaScript strings *)

Abbreviation jsstring := (list N).

(** A literal whose characters are all ASCII. *)
Definition js (s : string) : jsstring :=
  List.map N_of_ascii (list_ascii_of_string s).

(** [s.startsWith(p)] *)
Fixpoint startsWith (s p : jsstring) {struct p} : bool :=
  match p, s with
  | [], _ => true
  | _ :: _, [] => false
  | a :: p', b :: s' => N.eqb a b && startsWith s' p'
  end.

(** [s.substring(start, end)] for non-negative integer arguments: both
    indices are clamped to the length and swapped when out of order. *)
Definition substring (s : jsstring) (start end_ : nat) : jsstring :=
  let a := Nat.min start (length s) in
  let b := Nat.min end_ (length s) in
  drop (Nat.min a b) (take (Nat.max a b) s).

(** [s.repeat(n)] *)
Definition repeat_ (s : jsstring) (n : nat) : jsstring :=
  concat (replicate n s).

(** [s.split(sep)] for a separator of one code unit. *)
Fixpoint split (sep : N) (s : jsstring) : list jsstring :=
  match s with
  | [] => [[]]
  | c :: r =>
      if N.eqb c sep then [] :: split sep r
      else match split sep r with
           | l :: ls => (c :: l) :: ls
           | [] => [[c]]
           end
  end.

Definition LF : N := 10%N.

(** The newline-separated lines of a string. *)
Definition lines (s : jsstring) : list jsstring := split LF s.

(** JavaScript truthiness of a string: only the empty string is falsy. *)
Definition truthy (s : jsstring) : bool :=
  match s with [] => false | _ :: _ => true end.

(** ECMAScript WhiteSpace and LineTerminator code points, the ones
    [String.prototype.trim] removes. *)
Definition isWhiteSpace (c : N) : bool :=
  (N.leb 9 c && N.leb c 13)        (* TAB LF VT FF CR *)
  || N.eqb c 32                    (* SPACE *)
  || N.eqb c 160                   (* NO-BREAK SPACE *)
  || N.eqb c 5760                  (* OGHAM SPACE MARK *)
  || (N.leb 8192 c && N.leb c 8202) (* EN QUAD .. HAIR SPACE *)
  || N.eqb c 8232 || N.eqb c 8233  (* LINE and PARAGRAPH SEPARATOR *)
  || N.eqb c 8239 || N.eqb c 8287  (* NARROW NBSP, MEDIUM MATH SPACE *)
  || N.eqb c 12288                 (* IDEOGRAPHIC SPACE *)
  || N.eqb c 65279.                (* ZERO WIDTH NO-BREAK SPACE *)

Fixpoint trimStart (s : jsstring) : jsstring :=
  match s with
  | [] => []
  | c :: r => if isWhiteSpace c then trimStart r else s
  end.

Definition trimEnd (s : jsstring) : jsstring :=
  reverse (trimStart (reverse s)).

(** [s.trim()] *)
Definition trim (s : jsstring) : jsstring := trimEnd (trimStart s).

(** [s.indexOf(p)]: the least index at which [p] occurs in [s]. *)
Fixpoint indexOf (s p : jsstring) : option nat :=
  if startsWith s p then Some 0
  else match s with
       | [] => None
       | _ :: r => S <$> indexOf r p
       end.

(** [s.replace(p, r)] for a string pattern [p] and a replacement [r] free of
    [$] patterns: the first occurrence of [p] is replaced, if there is one. *)
Definition replace_ (s p r : jsstring) : jsstring :=
  match indexOf s p with
  | Some i => take i s ++ r ++ drop (i + length p) s
  | None => s
  end.

(** ** Fallback art *)

(** Modelled from the spec: the type [AsciiArtData] is declared in
    [services/geminiService], which is not part of the sources; the spec
    describes it as a single string field containing pre-formatted art, and
    [createFallbackArt] builds it from the one field [art]. *)
Record AsciiArtData := { art : jsstring }.

(** Box-drawing code units used by [createFallbackArt]. *)
Definition BOX_DOWN_RIGHT : N := 0x250C%N. (* ┌ *)
Definition BOX_HORIZONTAL : N := 0x2500%N. (* ─ *)
Definition BOX_DOWN_LEFT  : N := 0x2510%N. (* ┐ *)
Definition BOX_VERTICAL   : N := 0x2502%N. (* │ *)
Definition BOX_UP_RIGHT   : N := 0x2514%N. (* └ *)
Definition BOX_UP_LEFT    : N := 0x2518%N. (* ┘ *)

Definition ELLIPSIS : jsstring := js "...".

(** [createFallbackArt] (App, lines 81-90). The label shown in the box is the
    [displayableTopic] of the source. *)
Definition displayableTopic (topic : jsstring) : jsstring :=
  if 20 <? length topic then substring topic 0 17 ++ ELLIPSIS else topic.

(** The local constants of [createFallbackArt], as functions of the topic. *)
Definition paddedTopic (topic : jsstring) : jsstring :=
  js " " ++ displayableTopic topic ++ js " ".

Definition topBorder (topic : jsstring) : jsstring :=
  [BOX_DOWN_RIGHT] ++ repeat_ [BOX_HORIZONTAL] (length (paddedTopic topic))
                   ++ [BOX_DOWN_LEFT].

Definition middle (topic : jsstring) : jsstring :=
  [BOX_VERTICAL] ++ paddedTopic topic ++ [BOX_VERTICAL].

Definition bottomBorder (topic : jsstring) : jsstring :=
  [BOX_UP_RIGHT] ++ repeat_ [BOX_HORIZONTAL] (length (paddedTopic topic))
                 ++ [BOX_UP_LEFT].

Definition createFallbackArt (topic : jsstring) : AsciiArtData :=
  {| art := topBorder topic ++ [LF] ++ middle topic ++ [LF] ++ bottomBorder topic |}.

(** ** The SearchBar component *)

(** What [handleSubmit] (SearchBar, lines 19-25) does to its surroundings:
    the event, the [onSearch] prop and the [query] state. *)
Inductive SearchBarEffect :=
| PreventDefault
| OnSearch (query : jsstring)
| SetQuery (query : jsstring).

Definition handleSubmit (query : jsstring) (isLoading : bool)
  : list SearchBarEffect :=
  [PreventDefault] ++
  if truthy (trim query) && negb isLoading
  then [OnSearch (trim query); SetQuery (js "")]
  else [].

(** The value of the [query] state after the setter calls of a trace. *)
Definition queryAfter (query : jsstring) (es : list SearchBarEffect)
  : jsstring :=
  fold_left (fun q e => match e with SetQuery q' => q' | _ => q end) es query.

(** The arguments with which [onSearch] was invoked, in order. *)
Definition onSearchCalls (es : list SearchBarEffect) : list jsstring :=
  omap (fun e => match e with OnSearch q => Some q | _ => None end) es.

(** ** The App component: state *)

(** [String.prototype.toLowerCase] is the host's; the handlers only compare
    its results, so the development is parametric in it. *)
Class StringCase := toLowerCase : jsstring -> jsstring.

(** Its restriction to Basic Latin: other code units are left as they are. *)
Definition basicLatinLower (s : jsstring) : jsstring :=
  List.map (fun c => if (N.leb 65 c && N.leb c 90)%bool then (c + 32)%N else c) s.

Definition basicLatinCase : StringCase := basicLatinLower.

Inductive Theme := light | dark.

Record AppState := {
  currentTopic : jsstring;
  content : jsstring;
  isLoading : bool;
  error : option jsstring;
  asciiArt : option AsciiArtData;
  generationTime : option Q;
  theme : Theme;
  history : list jsstring;
  isTranslating : bool;
  translationError : option jsstring;
  translatedContent : option jsstring;
  targetLanguage : jsstring;
  translatedLanguage : option jsstring
}.

(** The [useState] initial values (App, lines 93-105). *)
Definition initialState : AppState := {|
  currentTopic := js "Hypertext";
  content := js "";
  isLoading := true;
  error := None;
  asciiArt := None;
  generationTime := None;
  theme := light;
  history := [];
  isTranslating := false;
  translationError := None;
  translatedContent := None;
  targetLanguage := js "Spanish";
  translatedLanguage := None
|}.

(** A value caught by [catch (e: unknown)]: an [Error] object with its
    message, or anything else. *)
Inductive Thrown :=
| ErrorObject (message : jsstring)
| OtherValue.

(** The setter calls, service calls and console output of the handlers. *)
Inductive Effect :=
| SetCurrentTopic (topic : jsstring)
| SetContent (s : jsstring)
| SetIsLoading (b : bool)
| SetError (e : option jsstring)
| SetAsciiArt (a : option AsciiArtData)
| SetGenerationTime (t : option Q)
| SetHistory (updater : list jsstring -> list jsstring)
| SetIsTranslating (b : bool)
| SetTranslationError (e : option jsstring)
| SetTranslatedContent (s : option jsstring)
| SetTargetLanguage (language : jsstring)
| SetTranslatedLanguage (language : option jsstring)
| CallGenerateAsciiArt (topic : jsstring)
| CallStreamDefinition (topic : jsstring)
| CallGetRandomWord
| CallStreamTranslation (text language : jsstring)
| ConsoleError (label : option jsstring) (e : Thrown).

Definition applyEffect (st : AppState) (e : Effect) : AppState :=
  let '(Build_AppState topic cont load err artv gen th hist
                       isTr trErr trCont tgt trLang) := st in
  match e with
  | SetCurrentTopic x =>
      Build_AppState x cont load err artv gen th hist isTr trErr trCont tgt trLang
  | SetContent x =>
      Build_AppState topic x load err artv gen th hist isTr trErr trCont tgt trLang
  | SetIsLoading x =>
      Build_AppState topic cont x err artv gen th hist isTr trErr trCont tgt trLang
  | SetError x =>
      Build_AppState topic cont load x artv gen th hist isTr trErr trCont tgt trLang
  | SetAsciiArt x =>
      Build_AppState topic cont load err x gen th hist isTr trErr trCont tgt trLang
  | SetGenerationTime x =>
      Build_AppState topic cont load err artv x th hist isTr trErr trCont tgt trLang
  | SetHistory f =>
      Build_AppState topic cont load err artv gen th (f hist) isTr trErr trCont tgt trLang
  | SetIsTranslating x =>
      Build_AppState topic cont load err artv gen th hist x trErr trCont tgt trLang
  | SetTranslationError x =>
      Build_AppState topic cont load err artv gen th hist isTr x trCont tgt trLang
  | SetTranslatedContent x =>
      Build_AppState topic cont load err artv gen th hist isTr trErr x tgt trLang
  | SetTargetLanguage x =>
      Build_AppState topic cont load err artv gen th hist isTr trErr trCont x trLang
  | SetTranslatedLanguage x =>
      Build_AppState topic cont load err artv gen th hist isTr trErr trCont tgt x
  | CallGenerateAsciiArt _ | CallStreamDefinition _ | CallGetRandomWord
  | CallStreamTranslation _ _ | ConsoleError _ _ => st
  end.

Definition applyEffects (es : list Effect) (st : AppState) : AppState :=
  fold_left applyEffect es st.

(** Setter calls, as opposed to service calls and console output. *)
Definition isStateWrite (e : Effect) : bool :=
  match e with
  | CallGenerateAsciiArt _ | CallStreamDefinition _ | CallGetRandomWord
  | CallStreamTranslation _ _ | ConsoleError _ _ => false
  | _ => true
  end.

(** Calls of the translation service. *)
Definition isTranslationCall (e : Effect) : bool :=
  match e with CallStreamTranslation _ _ => true | _ => false end.

(** ** The curated word list (App, lines 65-73) *)

Definition PREDEFINED_WORDS : list jsstring := List.map js [
    "Balance"; "Harmony"; "Discord"; "Unity"; "Fragmentation"; "Clarity";
    "Ambiguity"; "Presence"; "Absence"; "Creation"; "Destruction"; "Light";
    "Shadow"; "Beginning"; "Ending"; "Rising"; "Falling"; "Connection";
    "Isolation"; "Hope"; "Despair";
    "Order and chaos"; "Light and shadow"; "Sound and silence";
    "Form and formlessness"; "Being and nonbeing"; "Presence and absence";
    "Motion and stillness"; "Unity and multiplicity"; "Finite and infinite";
    "Sacred and profane"; "Memory and forgetting"; "Question and answer";
    "Search and discovery"; "Journey and destination"; "Dream and reality";
    "Time and eternity"; "Self and other"; "Known and unknown";
    "Spoken and unspoken"; "Visible and invisible";
    "Zigzag"; "Waves"; "Spiral"; "Bounce"; "Slant"; "Drip"; "Stretch";
    "Squeeze"; "Float"; "Fall"; "Spin"; "Melt"; "Rise"; "Twist"; "Explode";
    "Stack"; "Mirror"; "Echo"; "Vibrate";
    "Gravity"; "Friction"; "Momentum"; "Inertia"; "Turbulence"; "Pressure";
    "Tension"; "Oscillate"; "Fractal"; "Quantum"; "Entropy"; "Vortex";
    "Resonance"; "Equilibrium"; "Centrifuge"; "Elastic"; "Viscous"; "Refract";
    "Diffuse"; "Cascade"; "Levitate"; "Magnetize"; "Polarize"; "Accelerate";
    "Compress"; "Undulate";
    "Liminal"; "Ephemeral"; "Paradox"; "Zeitgeist"; "Metamorphosis";
    "Synesthesia"; "Recursion"; "Emergence"; "Dialectic"; "Apophenia";
    "Limbo"; "Flux"; "Sublime"; "Uncanny"; "Palimpsest"; "Chimera"; "Void";
    "Transcend"; "Ineffable"; "Qualia"; "Gestalt"; "Simulacra"; "Abyssal";
    "Existential"; "Nihilism"; "Solipsism"; "Phenomenology"; "Hermeneutics";
    "Deconstruction"; "Postmodern"; "Absurdism"; "Catharsis"; "Epiphany";
    "Melancholy"; "Nostalgia"; "Longing"; "Reverie"; "Pathos"; "Ethos";
    "Logos"; "Mythos"; "Anamnesis"; "Intertextuality"; "Metafiction";
    "Stream"; "Lacuna"; "Caesura"; "Enjambment"
]%string.

(** [[...new Set(xs)]]: the distinct elements in order of first occurrence. *)
Definition newSet (xs : list jsstring) : list jsstring :=
  fold_left (fun seen x => if decide (x ∈ seen) then seen else seen ++ [x]) xs [].

Definition UNIQUE_WORDS : list jsstring := newSet PREDEFINED_WORDS.

(** ** Numbers *)

(** The integer nearest to [n / d], for [0 < d]; a tie goes to the even
    one. *)
Definition nearestInteger (n d : Z) : Z :=
  let q := (n / d)%Z in
  let r := (n mod d)%Z in
  if (2 * r <? d)%Z then q
  else if (d <? 2 * r)%Z then (q + 1)%Z
  else if Z.even q then q else (q + 1)%Z.

(** The double nearest to [p * 2^e], for [0 <= p] and [-1074 <= e], as a
    mantissa and an exponent: an integer of at most 53 bits is kept, of a
    longer one the bits beyond the 53rd are rounded away, a tie going to
    the even mantissa (the mantissa [2^53] is a carry into the next binade).
    With more than 53 bits the value is no subnormal. *)
Definition roundToDouble (p e : Z) : Z * Z :=
  let k := Z.max 0 (Z.log2 p - 52) in
  (nearestInteger p (2 ^ k), (e + k)%Z).

(** [Math.floor] of the double [m * 2^e], for [0 <= m]. *)
Definition floorDouble (x : Z * Z) : Z := Z.shiftl (fst x) (snd x).

(** [endTime - startTime] (line 181) subtracts two Numbers: the result is
    the difference rounded to a double by the host. A run only stores it,
    so the development is parametric in the subtraction. *)
Class NumberMinus := numberMinus : Q -> Q -> Q.

(** The subtraction of doubles, overflow apart: the double nearest to the
    exact difference. [nearestDouble q] is for [0 <= q]: [b] is the binade
    of [q], [2^b <= q < 2^(b+1)], and [u] the exponent of its last place,
    not below that of the subnormals. *)
Definition scaled (m u : Z) : Q :=
  if (0 <=? u)%Z then inject_Z (m * 2 ^ u)
  else Qmake m (Z.to_pos (2 ^ (- u))).

Definition nearestDouble (q : Q) : Q :=
  let n := Qnum q in
  let d := Z.pos (Qden q) in
  if (n =? 0)%Z then 0%Q
  else
    let e0 := (Z.log2 n - Z.log2 d)%Z in
    let below := if (0 <=? e0)%Z then (n <? d * 2 ^ e0)%Z
                 else (n * 2 ^ (- e0) <? d)%Z in
    let b := if below then (e0 - 1)%Z else e0 in
    let u := Z.max (b - 52) (-1074) in
    let m := if (0 <=? u)%Z then nearestInteger n (d * 2 ^ u)
             else nearestInteger (n * 2 ^ (- u)) d in
    scaled m u.

Definition doubleMinus (a b : Q) : Q :=
  let q := Qred (a - b) in
  if (0 <=? Qnum q)%Z then Qred (nearestDouble q)
  else Qred (- nearestDouble (- q)).

Definition doubleArithmetic : NumberMinus := doubleMinus.

(** ** Randomness *)

(** A value of [Math.random()]: a double in the half-open unit interval,
    [mantissa * 2^exponent]. Every double at least 0 and below 1 is of this
    form, and every such pair is one. *)
Record Sample := {
  mantissa : Z;
  exponent : Z;
  inUnitInterval :
    ((0 <=? mantissa)%Z && (mantissa <? 2 ^ 53)%Z
     && (-1074 <=? exponent)%Z && (exponent <=? -53)%Z) = true
}.

(** [Math.floor(x * n)], for a length [n] (an integer below [2^53], so
    exactly a Number): the product is rounded to a double before
    [Math.floor] sees it. *)
Definition floorTimes (x : Sample) (n : nat) : nat :=
  Z.to_nat (floorDouble (roundToDouble (mantissa x * Z.of_nat n) (exponent x))).

(** The generator behind [Math.random]: the values it will return, and how
    many it has returned so far. *)
Record Rng := { draws : nat -> Sample; drawn : nat }.

Definition Math_random (g : Rng) : Sample * Rng :=
  (draws g (drawn g), {| draws := draws g; drawn := S (drawn g) |}).

(** [UNIQUE_WORDS[Math.floor(Math.random() * UNIQUE_WORDS.length)]]. The
    index is below the length, so the default of [nth] is never returned. *)
Definition pickWord (g : Rng) : jsstring * Rng :=
  let '(x, g') := Math_random g in
  (nth (floorTimes x (length UNIQUE_WORDS)) UNIQUE_WORDS [], g').

(** ** The topic effect: [fetchContentAndArt] *)

Section App.
Context `{StringCase} `{NumberMinus}.

(** The updater passed to [setHistory] (lines 184-191).
    [prev[prev.length - 1]?.toLowerCase()] is [undefined] on an empty history,
    which equals no string. *)
Definition historyUpdater (currentTopic : jsstring) (prev : list jsstring)
  : list jsstring :=
  if decide (toLowerCase <$> last prev = Some (toLowerCase currentTopic))
  then prev
  else
    let newHistory := prev ++ [currentTopic] in
    if 15 <? length newHistory
    then drop (length newHistory - 15) newHistory
    else newHistory.

(** The closure of one run of the topic effect: the captured topic and
    [isCancelled] flag, the locals of [fetchContentAndArt], and where the two
    asynchronous operations stand. *)
Record FetchOp := {
  opTopic : jsstring;
  startTime : Q;
  isCancelled : bool;
  accumulatedContent : jsstring;
  success : bool;
  streaming : bool;   (* the [for await] loop has not been left *)
  artPending : bool   (* the [generateAsciiArt] promise is not settled *)
}.

(** The resumptions of a run. *)
Inductive FetchEvent :=
| ArtResolved (a : AsciiArtData)
| ArtRejected (err : Thrown)
| StreamChunk (chunk : jsstring)
| StreamEnd
| StreamThrow (e : Thrown)
| Cleanup.

(** The state writes at the head of [fetchContentAndArt] (lines 133-141). *)
Definition resetWrites : list Effect :=
  [ SetIsLoading true; SetError None; SetContent (js "");
    SetAsciiArt None; SetGenerationTime None;
    SetTranslatedContent None; SetTranslationError None;
    SetIsTranslating false; SetTranslatedLanguage None ].

(** The synchronous part of [fetchContentAndArt], up to the first [await];
    [now] is the value of [performance.now()]. *)
Definition fetchContentAndArt (currentTopic : jsstring) (now : Q)
  : FetchOp * list Effect :=
  ({| opTopic := currentTopic; startTime := now; isCancelled := false;
      accumulatedContent := js ""; success := false;
      streaming := true; artPending := true |},
   resetWrites
     ++ [CallGenerateAsciiArt currentTopic; CallStreamDefinition currentTopic]).

(** The body of the effect (lines 126-203): nothing is started for an empty
    topic. *)
Definition topicEffect (currentTopic : jsstring) (now : Q)
  : option FetchOp * list Effect :=
  if negb (truthy currentTopic) then (None, [])
  else let '(op, es) := fetchContentAndArt currentTopic now in (Some op, es).

(** [e instanceof Error ? e.message : 'An unknown error occurred'] *)
Definition errorMessageOf (e : Thrown) : jsstring :=
  match e with
  | ErrorObject message => message
  | OtherValue => js "An unknown error occurred"
  end.

(** The [catch] block (lines 171-177). *)
Definition fetchCatch (op : FetchOp) (e : Thrown) : list Effect :=
  if isCancelled op then []
  else [SetError (Some (errorMessageOf e)); SetContent (js ""); ConsoleError None e].

(** The [finally] block (lines 178-193), given the local [success]. The
    generation time is the Number [endTime - startTime]. *)
Definition fetchFinally (op : FetchOp) (success : bool) (now : Q)
  : list Effect :=
  if isCancelled op then []
  else
    [ SetGenerationTime (Some (numberMinus now (startTime op)));
      SetIsLoading false ]
      ++ (if success then [SetHistory (historyUpdater (opTopic op))] else []).

Definition leaveLoop (op : FetchOp) (success : bool) : FetchOp :=
  {| opTopic := opTopic op; startTime := startTime op;
     isCancelled := isCancelled op;
     accumulatedContent := accumulatedContent op; success := success;
     streaming := false; artPending := artPending op |}.

Definition settleArt (op : FetchOp) : FetchOp :=
  {| opTopic := opTopic op; startTime := startTime op;
     isCancelled := isCancelled op;
     accumulatedContent := accumulatedContent op; success := success op;
     streaming := streaming op; artPending := false |}.

Definition accumulate (op : FetchOp) (chunk : jsstring) : FetchOp :=
  {| opTopic := opTopic op; startTime := startTime op;
     isCancelled := isCancelled op;
     accumulatedContent := accumulatedContent op ++ chunk;
     success := success op;
     streaming := streaming op; artPending := artPending op |}.

(** The cleanup returned by the effect: [isCancelled = true]. *)
Definition cancel (op : FetchOp) : FetchOp :=
  {| opTopic := opTopic op; startTime := startTime op;
     isCancelled := true;
     accumulatedContent := accumulatedContent op; success := success op;
     streaming := streaming op; artPending := artPending op |}.

(** One resumption of a run at time [now]: a handler of the art promise
    (lines 145-154), or one turn of the [for await] loop with what follows it
    (lines 156-194). A settled promise and a left loop are not resumed
    again. *)
Definition fetchStep (now : Q) (op : FetchOp) (ev : FetchEvent)
  : FetchOp * list Effect :=
  match ev with
  | Cleanup => (cancel op, [])
  | ArtResolved a =>
      if artPending op
      then (settleArt op, if isCancelled op then [] else [SetAsciiArt (Some a)])
      else (op, [])
  | ArtRejected err =>
      if artPending op
      then (settleArt op,
            if isCancelled op then []
            else [ ConsoleError (Some (js "Failed to generate ASCII art:")) err;
                   SetAsciiArt (Some (createFallbackArt (opTopic op))) ])
      else (op, [])
  | StreamChunk chunk =>
      if negb (streaming op) then (op, [])
      else if isCancelled op then
        (* break *)
        let success := truthy (accumulatedContent op) in
        (leaveLoop op success, fetchFinally op success now)
      else if startsWith chunk (js "Error:") then
        (* throw new Error(chunk) *)
        (leaveLoop op false,
         fetchCatch op (ErrorObject chunk) ++ fetchFinally op false now)
      else
        let op' := accumulate op chunk in
        (op', if isCancelled op' then []
              else [SetContent (accumulatedContent op')])
  | StreamEnd =>
      if negb (streaming op) then (op, [])
      else
        let success := truthy (accumulatedContent op) in
        (leaveLoop op success, fetchFinally op success now)
  | StreamThrow e =>
      if negb (streaming op) then (op, [])
      else (leaveLoop op false, fetchCatch op e ++ fetchFinally op false now)
  end.

(** A run resumed by a sequence of timed events: the final closure and
    everything the run did. *)
Fixpoint fetchRun (op : FetchOp) (evs : list (Q * FetchEvent))
  : FetchOp * list Effect :=
  match evs with
  | [] => (op, [])
  | (now, ev) :: evs' =>
      let '(op1, es1) := fetchStep now op ev in
      let '(op2, es2) := fetchRun op1 evs' in
      (op2, es1 ++ es2)
  end.

(** ** The App component: rendering and the topic handlers *)

(** The component state together with the runs of the topic effect: the one
    whose cleanup has not been called, and the ones whose cleanup has. *)
Record App := {
  state : AppState;
  live : option FetchOp;
  stale : list FetchOp
}.

(** React: the setter calls of a handler are applied; when [currentTopic]
    has changed, the cleanup of the previous run of the topic effect is
    called and the effect runs again. Returns the trace of everything done. *)
Definition commit (now : Q) (es : list Effect) (app : App)
  : App * list Effect :=
  let st' := applyEffects es (state app) in
  if decide (currentTopic st' = currentTopic (state app))
  then ({| state := st'; live := live app; stale := stale app |}, es)
  else
    let stale' :=
      match live app with
      | Some op => cancel op :: stale app
      | None => stale app
      end in
    let '(op', es') := topicEffect (currentTopic st') now in
    ({| state := applyEffects es' st'; live := op'; stale := stale' |},
     es ++ es').

(** The first render: the initial state, and the first run of the effect. *)
Definition mount (now : Q) : App :=
  let '(op, es) := topicEffect (currentTopic initialState) now in
  {| state := applyEffects es initialState; live := op; stale := [] |}.

(** [handleWordClick] (lines 205-210) and [handleSearch] (lines 212-217), in
    the closure of a render with state [st]. *)
Definition handleWordClick (st : AppState) (word : jsstring) : list Effect :=
  let newTopic := trim word in
  if truthy newTopic
     && negb (bool_decide (toLowerCase newTopic = toLowerCase (currentTopic st)))
  then [SetCurrentTopic newTopic]
  else [].

Definition handleSearch (st : AppState) (topic : jsstring) : list Effect :=
  let newTopic := trim topic in
  if truthy newTopic
     && negb (bool_decide (toLowerCase newTopic = toLowerCase (currentTopic st)))
  then [SetCurrentTopic newTopic]
  else [].

(** A click on a word of the content or on a history button. *)
Definition clickWord (now : Q) (word : jsstring) (app : App)
  : App * list Effect :=
  commit now (handleWordClick (state app) word) app.

(** A submit of the search form holding [query]: the SearchBar is rendered
    with [onSearch={handleSearch}] and [isLoading={isLoading}]. *)
Definition submitSearch (now : Q) (query : jsstring) (app : App)
  : App * list Effect :=
  commit now
    (flat_map (handleSearch (state app))
              (onSearchCalls (handleSubmit query (isLoading (state app)))))
    app.

(** A resumption of the live run. *)
Definition resumeLive (now : Q) (ev : FetchEvent) (app : App)
  : App * list Effect :=
  match live app with
  | None => (app, [])
  | Some op =>
      let '(op', es) := fetchStep now op ev in
      ({| state := applyEffects es (state app); live := Some op';
          stale := stale app |}, es)
  end.

(** A resumption of the [i]-th stale run. *)
Definition resumeStale (now : Q) (i : nat) (ev : FetchEvent) (app : App)
  : App * list Effect :=
  match stale app !! i with
  | None => (app, [])
  | Some op =>
      let '(op', es) := fetchStep now op ev in
      ({| state := applyEffects es (state app); live := live app;
          stale := <[i := op']> (stale app) |}, es)
  end.

(** The states the component can be in: the first render, then the setter
    calls of any handler committed, and any resumption of the live run or of
    a stale one. A stream or a promise never delivers the cleanup: it is
    called by [commit] alone. *)
Inductive reachable : App -> Prop :=
| reachable_mount (now : Q) :
    reachable (mount now)
| reachable_commit (now : Q) (es : list Effect) (app : App) :
    reachable app -> reachable (fst (commit now es app))
| reachable_resumeLive (now : Q) (ev : FetchEvent) (app : App) :
    reachable app -> ev <> Cleanup -> reachable (fst (resumeLive now ev app))
| reachable_resumeStale (now : Q) (i : nat) (ev : FetchEvent) (app : App) :
    reachable app -> ev <> Cleanup ->
    reachable (fst (resumeStale now i ev app)).

(** [success] is set only on leaving the loop with content accumulated. *)
Definition successMeansContent (op : FetchOp) : Prop :=
  success op = true -> accumulatedContent op <> [] /\ streaming op = false.

(** ** The random topic *)

(** [handleRandom] (lines 219-242) up to its [await]: the four resets and
    the call of the service. *)
Definition handleRandomStart : list Effect :=
  [ SetIsLoading true; SetError None; SetContent (js "");
    SetAsciiArt None; CallGetRandomWord ].

(** [handleRandom] from the outcome of [getRandomWord()] on: the word, or
    the rejection. [captured] is the [currentTopic] of the render in which
    Random was pressed: the closure compares with it, whatever the page
    shows by then. *)
Definition handleRandomResume (captured : jsstring)
    (outcome : jsstring + Thrown) (g : Rng) : list Effect * Rng :=
  let '(nextTopic, logged, g1) :=
    match outcome with
    | inl randomWord => (randomWord, [], g)
    | inr e =>
        let '(word, g') := pickWord g in
        (word,
         [ConsoleError
            (Some (js "Failed to get random word from API, using fallback list."))
            e],
         g')
    end in
  if bool_decide (toLowerCase nextTopic = toLowerCase captured)
  then
    let '(word, g2) := pickWord g1 in
    (logged ++ [SetCurrentTopic word], g2)
  else (logged ++ [SetCurrentTopic nextTopic], g1).

(** All the calls of one [handleRandom], from the press in the render of
    [st] to the last setter. *)
Definition handleRandom (st : AppState) (outcome : jsstring + Thrown) (g : Rng)
  : list Effect * Rng :=
  let '(es, g') := handleRandomResume (currentTopic st) outcome g in
  (handleRandomStart ++ es, g').

(** The candidate of the first draw: [nextTopic] on entry to [finally]. *)
Definition firstDraw (outcome : jsstring + Thrown) (g : Rng) : jsstring * Rng :=
  match outcome with
  | inl randomWord => (randomWord, g)
  | inr _ => pickWord g
  end.

(** The topics passed to [setCurrentTopic] in a trace. *)
Definition topicsSet (es : list Effect) : list jsstring :=
  omap (fun e => match e with SetCurrentTopic t => Some t | _ => None end) es.

(** ** Translation *)

Definition handleLanguageChange (language : jsstring) : list Effect :=
  [SetTargetLanguage language].

(** The closure of one call of [handleTranslate]. *)
Record TranslateOp := {
  sourceText : jsstring;
  language : jsstring;
  accumulatedTranslation : jsstring;
  translating : bool   (* the [for await] loop has not been left *)
}.

Inductive TranslateEvent :=
| TranslationChunk (chunk : jsstring)
| TranslationEnd
| TranslationThrow (e : Thrown).

(** [handleTranslate] (lines 248-276). Its synchronous part: nothing at all
    on empty content. *)
Definition handleTranslate (st : AppState) : option TranslateOp * list Effect :=
  if negb (truthy (content st)) then (None, [])
  else
    (Some {| sourceText := content st; language := targetLanguage st;
             accumulatedTranslation := js ""; translating := true |},
     [ SetIsTranslating true; SetTranslatedContent (Some (js ""));
       SetTranslationError None;
       CallStreamTranslation (content st) (targetLanguage st) ]).

Definition translateCatch (e : Thrown) : list Effect :=
  [ SetTranslationError (Some (replace_ (errorMessageOf e) (js "Error: ") (js "")));
    SetTranslatedContent None ].

Definition translateFinally (op : TranslateOp) (success : bool) : list Effect :=
  [SetIsTranslating false]
    ++ (if success then [SetTranslatedLanguage (Some (language op))] else []).

Definition stopTranslating (op : TranslateOp) : TranslateOp :=
  {| sourceText := sourceText op; language := language op;
     accumulatedTranslation := accumulatedTranslation op;
     translating := false |}.

Definition translateStep (op : TranslateOp) (ev : TranslateEvent)
  : TranslateOp * list Effect :=
  if negb (translating op) then (op, [])
  else
    match ev with
    | TranslationChunk chunk =>
        if startsWith chunk (js "Error:") then
          (stopTranslating op,
           translateCatch (ErrorObject chunk) ++ translateFinally op false)
        else
          let acc := accumulatedTranslation op ++ chunk in
          ({| sourceText := sourceText op; language := language op;
              accumulatedTranslation := acc; translating := true |},
           [SetTranslatedContent (Some acc)])
    | TranslationEnd =>
        (stopTranslating op,
         translateFinally op (truthy (accumulatedTranslation op)))
    | TranslationThrow e =>
        (stopTranslating op, translateCatch e ++ translateFinally op false)
    end.

Fixpoint translateRun (op : TranslateOp) (evs : list TranslateEvent)
  : TranslateOp * list Effect :=
  match evs with
  | [] => (op, [])
  | ev :: evs' =>
      let '(op1, es1) := translateStep op ev in
      let '(op2, es2) := translateRun op1 evs' in
      (op2, es1 ++ es2)
  end.

(** ** Runs of the topic effect, one after another *)

(** One run of the topic effect: the topic it was started for, the time it
    started, and the timed resumptions it received. *)
Record TopicRun := {
  runTopic : jsstring;
  runStart : Q;
  runEvents : list (Q * FetchEvent)
}.

(** Everything a run does, from the reset to its last resumption. *)
Definition runEffects (r : TopicRun) : list Effect :=
  match topicEffect (runTopic r) (runStart r) with
  | (Some op, es) => es ++ snd (fetchRun op (runEvents r))
  | (None, es) => es
  end.

(** The closure of a run after its last resumption. *)
Definition runClosure (r : TopicRun) : option FetchOp :=
  match topicEffect (runTopic r) (runStart r) with
  | (Some op, _) => Some (fst (fetchRun op (runEvents r)))
  | (None, _) => None
  end.

Definition afterRuns (runs : list TopicRun) (st : AppState) : AppState :=
  fold_left (fun st r => applyEffects (runEffects r) st) runs st.

(** A run that completed successfully: its cleanup was not called, and it
    left the loop with [success] set, which the source does at the end of a
    stream that threw nothing and accumulated some content. *)
Definition completedSuccessfully (r : TopicRun) : Prop :=
  (Cleanup ∉ (runEvents r).*2) /\ (success <$> runClosure r) = Some true.

(** No two neighbours of the history are equal up to case. *)
Definition noAdjacentDuplicates (h : list jsstring) : Prop :=
  forall i a b,
    h !! i = Some a -> h !! S i = Some b -> toLowerCase a <> toLowerCase b.

(** The history after a trace: only the [setHistory] calls matter. *)
Definition historyAfter (es : list Effect) (h : list jsstring)
  : list jsstring :=
  fold_left (fun h e => match e with SetHistory f => f h | _ => h end) es h.

(** Every [setHistory] call of a trace passes the updater of some topic. *)
Definition historyWritesAreUpdaters (es : list Effect) : Prop :=
  Forall (fun e => match e with
                   | SetHistory f => exists topic, f = historyUpdater topic
                   | _ => True
                   end) es.

(** The error a resumption of a translation ends it with, if any: a chunk
    that begins with "Error:" is thrown as an [Error], a rejection of the
    stream is caught as it is. *)
Definition translationFailure (ev : TranslateEvent) : option Thrown :=
  match ev with
  | TranslationChunk chunk =>
      if startsWith chunk (js "Error:") then Some (ErrorObject chunk) else None
  | TranslationThrow e => Some e
  | TranslationEnd => None
  end.

(** A message with its leading "Error: " removed, if it has one: the cleaning
    the specification describes, to be compared with what [replace] does. *)
Definition stripLeadingErrorPrefix (message : jsstring) : jsstring :=
  if startsWith message (js "Error: ")
  then drop (length (js "Error: ")) message
  else message.

End App.

(** ** What the component renders (lines 279-364) *)

(** Truthiness of a [string | null] state: null and the empty string are
    falsy. *)
Definition truthyOrNull (o : option jsstring) : bool :=
  match o with Some s => truthy s | None => false end.

(** [{error && (...)}] *)
Definition showsErrorBox (st : AppState) : bool :=
  truthyOrNull (error st).

(** [{isLoading && content.length === 0 && !error && (...)}] *)
Definition showsLoadingSkeleton (st : AppState) : bool :=
  isLoading st && (length (content st) =? 0) && negb (truthyOrNull (error st)).

(** [{content.length > 0 && !error && (...)}] *)
Definition showsContent (st : AppState) : bool :=
  (0 <? length (content st)) && negb (truthyOrNull (error st)).

(** [{!isLoading && !error && content.length === 0 && (...)}]: the
    "Content could not be generated." notice. *)
Definition showsNotGenerated (st : AppState) : bool :=
  negb (isLoading st) && negb (truthyOrNull (error st))
  && (length (content st) =? 0).

(** [canTranslate={!isLoading && content.length > 0}] *)
Definition canTranslate (st : AppState) : bool :=
  negb (isLoading st) && (0 <? length (content st)).

(** [{(isTranslating || translatedContent || translationError) && (...)}] *)
Definition showsTranslationSection (st : AppState) : bool :=
  isTranslating st || truthyOrNull (translatedContent st)
  || truthyOrNull (translationError st).

(** [{translatedContent && !isTranslating && <p>...</p>}] *)
Definition showsTranslatedText (st : AppState) : bool :=
  truthyOrNull (translatedContent st) && negb (isTranslating st).

(** [{history.length > 1 && (...)}], and the topics of its buttons,
    [history.slice(0, -1)]. *)
Definition showsHistorySection (st : AppState) : bool :=
  1 <? length (history st).

Definition historyButtons (st : AppState) : list jsstring :=
  if showsHistorySection st
  then take (length (history st) - 1) (history st)
  else [].

(** ** The translation controls (TranslationControls.tsx) *)

(** [disabled={!canTranslate || isTranslating}] of the Translate button
    (line 39). *)
Definition translateButtonDisabled (canTranslate isTranslating : bool) : bool :=
  negb canTranslate || isTranslating.

(** A press of the Translate button as App renders it: a disabled button
    fires no click. *)
Definition pressTranslate (st : AppState) : option TranslateOp * list Effect :=
  if translateButtonDisabled (canTranslate st) (isTranslating st)
  then (None, [])
  else handleTranslate st.

(** A translation from the press of the button to its last resumption. *)
Definition translationEffects (st : AppState) (evs : list TranslateEvent)
  : list Effect :=
  match handleTranslate st with
  | (Some op, es) => es ++ snd (translateRun op evs)
  | (None, es) => es
  end.

(** ** The theme (App, lines 108-123) *)

(** What the theme code touches of the browser: the local storage, the
    answer of [matchMedia('(prefers-color-scheme: dark)')], and the class
    list of the body. The theme itself is the string it is at run time:
    [localStorage.getItem('theme') as Theme | null] checks nothing. *)
Record Browser := {
  localStorage : gmap (list N) (list N);
  prefersDark : bool;
  bodyClasses : gset (list N)
}.

(** [savedTheme || (prefersDark ? 'dark' : 'light')] *)
Definition initialTheme (b : Browser) : jsstring :=
  let preferred := if prefersDark b then js "dark" else js "light" in
  match localStorage b !! js "theme" with
  | Some savedTheme => if truthy savedTheme then savedTheme else preferred
  | None => preferred
  end.

(** The effect on [theme]: [classList.toggle('dark-mode', theme === 'dark')]
    and [localStorage.setItem('theme', theme)]. *)
Definition themeEffect (theme : jsstring) (b : Browser) : Browser :=
  {| localStorage := <[js "theme" := theme]> (localStorage b);
     prefersDark := prefersDark b;
     bodyClasses :=
       if decide (theme = js "dark")
       then {[js "dark-mode"]} ∪ bodyClasses b
       else bodyClasses b ∖ {[js "dark-mode"]} |}.

(** [prevTheme => prevTheme === 'light' ? 'dark' : 'light'] *)
Definition toggleTheme (prevTheme : jsstring) : jsstring :=
  if decide (prevTheme = js "light") then js "dark" else js "light".

(** Loading the page: the first render has the theme 'light'; the first
    effect reads the saved theme and sets it, the second stores 'light'; when
    the theme set is another one, the render that follows runs the second
    effect again. *)
Definition mountTheme (b : Browser) : jsstring * Browser :=
  let theme := initialTheme b in
  let b1 := themeEffect (js "light") b in
  if decide (theme = js "light") then (js "light", b1)
  else (theme, themeEffect theme b1).

(** A press of the theme toggle: the new theme is never the previous one,
    so the effect runs. *)
Definition pressThemeToggle (page : jsstring * Browser) : jsstring * Browser :=
  let theme := toggleTheme (fst page) in
  (theme, themeEffect theme (snd page)).

(** The page after it was loaded and the toggle pressed [n] times. *)
Fixpoint themeSession (n : nat) (b : Browser) : jsstring * Browser :=
  match n with
  | 0 => mountTheme b
  | S n' => pressThemeToggle (themeSession n' b)
  end.

(** ** The Random button with the rest of the component *)

Section Pressing.
Context `{StringCase} `{NumberMinus}.

(** A press of Random answered by the service before anything else happens:
    the setter calls of [handleRandom] are committed. *)
Definition pressRandom (now : Q) (outcome : jsstring + Thrown) (g : Rng)
    (app : App) : App * list Effect :=
  commit now (fst (handleRandom (state app) outcome g)) app.

(** The topic [handleRandom] passes to [setCurrentTopic]. *)
Definition randomTopic (st : AppState) (outcome : jsstring + Thrown) (g : Rng)
  : jsstring :=
  let candidate := fst (firstDraw outcome g) in
  if bool_decide (toLowerCase candidate = toLowerCase (currentTopic st))
  then fst (pickWord (snd (firstDraw outcome g)))
  else candidate.

(** ** The page: controls, pending calls and the theme *)

(** The controls to which the render (lines 279-364) gives a handler of
    [App], each with what the user supplies: the query held by the search
    form, the word clicked in the content, the position of a history
    button, the language chosen. *)
Inductive Control :=
| SearchForm (query : jsstring)
| RandomButton
| ContentWord (word : jsstring)
| HistoryButton (index : nat)
| TranslateButton
| LanguageSelect (language : jsstring)
| ThemeToggle.

(** What a handler calls: a setter or a service of [Effect], or [setTheme]
    with its updater. *)
Inductive PageEffect :=
| OfApp (e : Effect)
| SetTheme (updater : jsstring -> jsstring).

(** The calls a control makes before its handler returns or awaits, in the
    render of [st]. The Random button is [disabled={isLoading}], the
    Translate button [disabled={!canTranslate || isTranslating}], the
    language select [disabled={isTranslating}]: a disabled control calls
    nothing. The words of the content and the history buttons are there
    only when rendered; whatever word the content display passes to
    [onWordClick] is allowed. [handleRandom] runs up to its [await]. *)
Definition controlEffects (st : AppState) (c : Control) : list PageEffect :=
  match c with
  | SearchForm query =>
      OfApp <$> flat_map (handleSearch st)
                  (onSearchCalls (handleSubmit query (isLoading st)))
  | RandomButton =>
      if isLoading st then [] else OfApp <$> handleRandomStart
  | ContentWord word =>
      if showsContent st then OfApp <$> handleWordClick st word else []
  | HistoryButton index =>
      match historyButtons st !! index with
      | Some topic => OfApp <$> handleWordClick st topic
      | None => []
      end
  | TranslateButton => OfApp <$> snd (pressTranslate st)
  | LanguageSelect language =>
      if isTranslating st then [] else OfApp <$> handleLanguageChange language
  | ThemeToggle => [SetTheme toggleTheme]
  end.

(** The page: the component with its runs, the calls of [handleRandom]
    that await the service (of each, the [currentTopic] its closure holds),
    and the theme with the browser state it is kept in. *)
Record Page := {
  pageApp : App;
  pendingRandom : list jsstring;
  pageTheme : jsstring * Browser
}.

Definition mountPage (now : Q) (b : Browser) : Page :=
  {| pageApp := mount now; pendingRandom := []; pageTheme := mountTheme b |}.

(** The setter and service calls of [App] among some calls. *)
Definition appEffects (calls : list PageEffect) : list Effect :=
  omap (fun c => match c with OfApp e => Some e | SetTheme _ => None end) calls.

Definition themeCalls (calls : list PageEffect) : list PageEffect :=
  flat_map (fun c => match c with SetTheme f => [SetTheme f] | OfApp _ => [] end)
           calls.

(** [setTheme(updater)]: the effect on [theme] runs when the theme has
    changed. *)
Definition setTheme (updater : jsstring -> jsstring)
    (themed : jsstring * Browser) : jsstring * Browser :=
  let theme := updater (fst themed) in
  if decide (theme = fst themed) then themed
  else (theme, themeEffect theme (snd themed)).

Definition themeAfter (calls : list PageEffect) (themed : jsstring * Browser)
  : jsstring * Browser :=
  fold_left (fun t c => match c with SetTheme f => setTheme f t | OfApp _ => t end)
            calls themed.

(** Each call of the random-word service leaves a call of [handleRandom]
    awaiting it, with the topic of the render [st]. *)
Definition awaited (st : AppState) (calls : list PageEffect) : list jsstring :=
  flat_map (fun c => match c with
                     | OfApp CallGetRandomWord => [currentTopic st]
                     | _ => []
                     end) calls.

(** What can happen to the page: a control is used; the random-word
    service answers the [i]-th pending call of [handleRandom], with the
    generator [Math.random] then draws from; the live run or a stale one is
    resumed; or a translation is resumed (the page keeps no list of the
    translations under way: any closure of [handleTranslate] is allowed). *)
Inductive PageEvent :=
| Use (c : Control)
| RandomWordAnswers (i : nat) (outcome : jsstring + Thrown) (g : Rng)
| LiveRunResumes (ev : FetchEvent)
| StaleRunResumes (i : nat) (ev : FetchEvent)
| TranslationResumes (op : TranslateOp) (ev : TranslateEvent).

Definition onApp (pg : Page) (step : App * list Effect) : Page * list PageEffect :=
  ({| pageApp := fst step; pendingRandom := pendingRandom pg;
      pageTheme := pageTheme pg |}, OfApp <$> snd step).

Definition pageStep (now : Q) (e : PageEvent) (pg : Page)
  : Page * list PageEffect :=
  match e with
  | Use c =>
      let st := state (pageApp pg) in
      let calls := controlEffects st c in
      let '(app', es) := commit now (appEffects calls) (pageApp pg) in
      ({| pageApp := app';
          pendingRandom := pendingRandom pg ++ awaited st calls;
          pageTheme := themeAfter calls (pageTheme pg) |},
       (OfApp <$> es) ++ themeCalls calls)
  | RandomWordAnswers i outcome g =>
      match pendingRandom pg !! i with
      | Some captured =>
          let '(app', es) :=
            commit now (fst (handleRandomResume captured outcome g))
                   (pageApp pg) in
          ({| pageApp := app'; pendingRandom := delete i (pendingRandom pg);
              pageTheme := pageTheme pg |}, OfApp <$> es)
      | None => (pg, [])
      end
  | LiveRunResumes ev => onApp pg (resumeLive now ev (pageApp pg))
  | StaleRunResumes i ev => onApp pg (resumeStale now i ev (pageApp pg))
  | TranslationResumes op ev =>
      onApp pg (commit now (snd (translateStep op ev)) (pageApp pg))
  end.

Fixpoint pageRun (evs : list (Q * PageEvent)) (pg : Page)
  : Page * list PageEffect :=
  match evs with
  | [] => (pg, [])
  | (now, e) :: evs' =>
      let '(pg1, es1) := pageStep now e pg in
      let '(pg2, es2) := pageRun evs' pg1 in
      (pg2, es1 ++ es2)
  end.

(** The page is stalled: it is loading with no content and fewer than two
    history entries, while no run is in its loop any more (the live run, if
    any, has left it, and the others are cancelled) and no call of
    [handleRandom] awaits the service. *)
Definition stalled (pg : Page) : Prop :=
  isLoading (state (pageApp pg)) = true
  /\ content (state (pageApp pg)) = []
  /\ length (history (state (pageApp pg))) <= 1
  /\ (forall op, live (pageApp pg) = Some op -> streaming op = false)
  /\ Forall (fun op => isCancelled op = true) (stale (pageApp pg))
  /\ pendingRandom pg = [].

(** The effects that are beside the definition on the page: they set
    neither the topic, the content, the loading flag, the error nor the
    history, and request no definition, art or random word. *)
Definition besideTheDefinition (e : Effect) : bool :=
  match e with
  | SetAsciiArt _ | SetTargetLanguage _ | SetIsTranslating _
  | SetTranslationError _ | SetTranslatedContent _ | SetTranslatedLanguage _
  | ConsoleError _ _ => true
  | _ => false
  end.

Definition besideTheDefinitionOnPage (c : PageEffect) : bool :=
  match c with
  | OfApp e => besideTheDefinition e
  | SetTheme _ => true
  end.

End Pressing.

(** * Properties *)

(** ** Strings *)

Lemma startsWith_app (p r : jsstring) : startsWith (p ++ r) p = true.
Proof.
  induction p as [|a p IH]; [done|].
  simpl. by rewrite N.eqb_refl.
Qed.

Lemma startsWith_inv (s p : jsstring) :
  startsWith s p = true -> s = p ++ drop (length p) s.
Proof.
  revert s. induction p as [|a p IH]; intros s Hs; [done|].
  destruct s as [|b s]; [done|]. simpl in Hs.
  apply andb_prop in Hs as [Hab Hs]. apply N.eqb_eq in Hab. subst b.
  simpl. f_equal. by apply IH.
Qed.

Lemma indexOf_leading (s p : jsstring) :
  startsWith s p = true -> indexOf s p = Some 0.
Proof. intros Hs. destruct s; simpl; by rewrite Hs. Qed.

(** On a string that begins with the pattern, [replace] strips that prefix. *)
Lemma replace_leading (s p : jsstring) :
  startsWith s p = true -> replace_ s p (js "") = drop (length p) s.
Proof. intros Hs. unfold replace_. by rewrite (indexOf_leading _ _ Hs). Qed.

Lemma trimStart_split (s : jsstring) :
  exists ws, s = ws ++ trimStart s /\ Forall (fun c => isWhiteSpace c = true) ws.
Proof.
  induction s as [|c s [ws [Hs Hws]]]; [by exists []|].
  simpl. destruct (isWhiteSpace c) eqn:Hc.
  - exists (c :: ws). split; [by rewrite Hs at 1|by constructor].
  - by exists [].
Qed.

Lemma trimStart_head (s : jsstring) (c : N) :
  head (trimStart s) = Some c -> isWhiteSpace c = false.
Proof.
  induction s as [|d s IH]; [done|].
  simpl. destruct (isWhiteSpace d) eqn:Hd; [done|].
  simpl. by intros [= <-].
Qed.

Lemma trimEnd_split (s : jsstring) :
  exists ws, s = trimEnd s ++ ws /\ Forall (fun c => isWhiteSpace c = true) ws.
Proof.
  destruct (trimStart_split (reverse s)) as [ws [Hs Hws]].
  exists (reverse ws). split.
  - unfold trimEnd. rewrite <- reverse_app, <- Hs. by rewrite reverse_involutive.
  - by apply Forall_reverse.
Qed.

Lemma trimEnd_last (s : jsstring) (c : N) :
  last (trimEnd s) = Some c -> isWhiteSpace c = false.
Proof. unfold trimEnd. rewrite last_reverse. apply trimStart_head. Qed.

Lemma trimEnd_head (s : jsstring) (c : N) :
  head (trimEnd s) = Some c -> head s = Some c.
Proof.
  destruct (trimEnd_split s) as [ws [Hs _]]. intros Hc.
  rewrite Hs. by destruct (trimEnd s).
Qed.

(** [trim] leaves no white space at either end. *)
Lemma trim_ends (s : jsstring) (c : N) :
  head (trim s) = Some c \/ last (trim s) = Some c -> isWhiteSpace c = false.
Proof.
  unfold trim. intros [Hc|Hc].
  - by apply (trimStart_head s), trimEnd_head.
  - by apply (trimEnd_last (trimStart s)).
Qed.

(** [trim] removes white space only, and only at the two ends. *)
Lemma trim_split (s : jsstring) :
  exists ws1 ws2,
    s = ws1 ++ trim s ++ ws2
    /\ Forall (fun c => isWhiteSpace c = true) ws1
    /\ Forall (fun c => isWhiteSpace c = true) ws2.
Proof.
  destruct (trimStart_split s) as [ws1 [H1 Hws1]].
  destruct (trimEnd_split (trimStart s)) as [ws2 [H2 Hws2]].
  exists ws1, ws2. unfold trim. by rewrite <- H2.
Qed.

Lemma trimStart_fixed (s : jsstring) :
  (forall c, head s = Some c -> isWhiteSpace c = false) -> trimStart s = s.
Proof.
  destruct s as [|c s]; [done|]. intros Hc. simpl. by rewrite (Hc c).
Qed.

Lemma trimEnd_fixed (s : jsstring) :
  (forall c, last s = Some c -> isWhiteSpace c = false) -> trimEnd s = s.
Proof.
  intros Hc. unfold trimEnd. rewrite trimStart_fixed.
  - apply reverse_involutive.
  - intros c. rewrite head_reverse. apply Hc.
Qed.

Lemma trim_idempotent (s : jsstring) : trim (trim s) = trim s.
Proof.
  unfold trim at 1. rewrite trimStart_fixed.
  - apply trimEnd_fixed. intros c Hc. apply (trim_ends s). by right.
  - intros c Hc. apply (trim_ends s). by left.
Qed.

Lemma truthy_true (s : jsstring) : truthy s = true <-> s <> [].
Proof. by destruct s. Qed.

Lemma split_no_sep (sep : N) (s : jsstring) :
  sep ∉ s -> split sep s = [s].
Proof.
  induction s as [|c s IH]; [done|]. intros Hs.
  apply not_elem_of_cons in Hs as [Hc Hs]. simpl.
  destruct (N.eqb_spec c sep) as [->|_]; [done|]. by rewrite IH.
Qed.

Lemma split_app_sep (sep : N) (s r : jsstring) :
  sep ∉ s -> split sep (s ++ sep :: r) = s :: split sep r.
Proof.
  induction s as [|c s IH]; intros Hs; simpl.
  - by rewrite N.eqb_refl.
  - apply not_elem_of_cons in Hs as [Hc Hs].
    destruct (N.eqb_spec c sep) as [->|_]; [done|]. by rewrite IH.
Qed.

Example trim_example :
  trim [32; 9; 97; 32; 98; 10; 32]%N = [97; 32; 98]%N.
Proof. reflexivity. Qed.

Example replace_example :
  replace_ (js "Error: Quota exceeded") (js "Error: ") (js "") = js "Quota exceeded"
  /\ replace_ (js "Quota exceeded") (js "Error: ") (js "") = js "Quota exceeded".
Proof. split; reflexivity. Qed.

Lemma lines_three (a b c : jsstring) :
  LF ∉ a -> LF ∉ b -> LF ∉ c ->
  lines (a ++ [LF] ++ b ++ [LF] ++ c) = [a; b; c].
Proof.
  intros Ha Hb Hc. unfold lines.
  change (a ++ [LF] ++ b ++ [LF] ++ c) with (a ++ LF :: (b ++ LF :: c)).
  rewrite !split_app_sep by done. by rewrite split_no_sep.
Qed.

(** ** The search form *)

(** C9 — [handleSubmit] invokes [onSearch] only when the trimmed query is
    non-empty and no load is in progress; the argument is the trimmed query,
    which has no white space at either end; and the call is immediately
    followed by [setQuery('')], so the input field ends up empty. In every
    other case the callback is not invoked and the field keeps its text. *)
Theorem handleSubmit_search_callback (query : jsstring) (isLoading : bool) :
  let es := handleSubmit query isLoading in
  (forall a, OnSearch a ∈ es ->
     trim query <> [] /\ isLoading = false /\ a = trim query
     /\ forall c, head a = Some c \/ last a = Some c -> isWhiteSpace c = false)
  /\ (if truthy (trim query) && negb isLoading
      then es = [PreventDefault; OnSearch (trim query); SetQuery (js "")]
           /\ queryAfter query es = js ""
      else es = [PreventDefault]
           /\ onSearchCalls es = [] /\ queryAfter query es = query).
Proof.
  unfold handleSubmit. simpl.
  destruct (truthy (trim query)) eqn:Hq, isLoading; simpl; (split; [|done]);
    intros a Ha; decompose_list_elem_of; try discriminate.
  match goal with E : OnSearch _ = OnSearch _ |- _ => injection E as -> end.
  repeat split; [by apply truthy_true|apply trim_ends].
Qed.

(** ** Fallback art *)

Lemma displayableTopic_short (topic : jsstring) :
  length topic <= 20 -> displayableTopic topic = topic.
Proof.
  intros Hlen. unfold displayableTopic.
  destruct (Nat.ltb_spec 20 (length topic)); [lia|done].
Qed.

Lemma displayableTopic_long (topic : jsstring) :
  20 < length topic ->
  displayableTopic topic = take 17 topic ++ ELLIPSIS
  /\ length (take 17 topic) = 17.
Proof.
  intros Hlen. unfold displayableTopic, substring.
  destruct (Nat.ltb_spec 20 (length topic)); [|lia].
  rewrite Nat.min_0_l, (Nat.min_l 17) by lia.
  rewrite Nat.min_0_l, Nat.max_0_l, drop_0.
  split; [done|]. rewrite length_take. lia.
Qed.

Lemma displayableTopic_length (topic : jsstring) :
  length (displayableTopic topic) <= 20.
Proof.
  destruct (Nat.le_gt_cases (length topic) 20) as [Hle|Hgt].
  - by rewrite displayableTopic_short.
  - destruct (displayableTopic_long topic Hgt) as [-> H17].
    rewrite length_app, H17. simpl. lia.
Qed.

Lemma repeat_unit (c : N) (n : nat) : repeat_ [c] n = replicate n c.
Proof.
  unfold repeat_. induction n as [|n IH]; [done|]. simpl. by rewrite IH.
Qed.

Lemma border_lengths (topic : jsstring) :
  length (topBorder topic) = length (displayableTopic topic) + 4
  /\ length (middle topic) = length (displayableTopic topic) + 4
  /\ length (bottomBorder topic) = length (displayableTopic topic) + 4.
Proof.
  unfold topBorder, middle, bottomBorder, paddedTopic.
  rewrite !repeat_unit.
  repeat (rewrite ?length_app, ?length_replicate; simpl). lia.
Qed.

Lemma borders_no_newline (topic : jsstring) :
  (LF ∉ topBorder topic) /\ (LF ∉ bottomBorder topic).
Proof.
  unfold topBorder, bottomBorder. rewrite !repeat_unit.
  split; intros Hin; decompose_list_elem_of; try discriminate;
    match goal with E : LF ∈ replicate _ _ |- _ =>
      apply elem_of_replicate in E as [E _]; discriminate E
    end.
Qed.

Example createFallbackArt_Cat :
  art (createFallbackArt (js "Cat"))
  = [ 0x250C; 0x2500; 0x2500; 0x2500; 0x2500; 0x2500; 0x2510; 10;
      0x2502; 32; 67; 97; 116; 32; 0x2502; 10;
      0x2514; 0x2500; 0x2500; 0x2500; 0x2500; 0x2500; 0x2518 ]%N.
Proof. reflexivity. Qed.

(** C6 — when [generateAsciiArt] rejects, the only art a run stores is the
    fallback box of its topic, and a run that has not been cancelled does
    store it. The box holds, between two vertical bars and two spaces, a label
    that is either the untruncated topic (of at most 20 characters) or the
    first 17 characters of the topic followed by the ellipsis; so the label
    is never longer than 17 characters plus the three of the ellipsis. For
    "Supercalifragilisticexpialidocious" it is "Supercalifragilis...". *)
Theorem art_failure_fallback_label `{StringCase} `{NumberMinus}
    (now : Q) (op : FetchOp) (err : Thrown) :
  let topic := opTopic op in
  let label := displayableTopic topic in
  let es := snd (fetchStep now op (ArtRejected err)) in
  (forall a, SetAsciiArt a ∈ es -> a = Some (createFallbackArt topic))
  /\ (if artPending op && negb (isCancelled op)
      then SetAsciiArt (Some (createFallbackArt topic)) ∈ es
      else es = [])
  /\ art (createFallbackArt topic)
     = topBorder topic ++ [LF]
         ++ ([BOX_VERTICAL] ++ js " " ++ label ++ js " " ++ [BOX_VERTICAL])
         ++ [LF] ++ bottomBorder topic
  /\ ((label = topic /\ length topic <= 20)
      \/ (label = take 17 topic ++ js "..." /\ length (take 17 topic) = 17
          /\ 20 < length topic))
  /\ length label <= 17 + length (js "...")
  /\ displayableTopic (js "Supercalifragilisticexpialidocious")
     = js "Supercalifragilis" ++ js "...".
Proof.
  simpl. repeat split.
  - intros a Ha. destruct (artPending op), (isCancelled op); simpl in Ha;
      decompose_list_elem_of; congruence.
  - destruct (artPending op), (isCancelled op); simpl; try done.
    apply elem_of_cons. right. apply elem_of_cons. by left.
  - unfold createFallbackArt, middle, paddedTopic. simpl.
    by rewrite <- !app_assoc.
  - destruct (Nat.le_gt_cases (length (opTopic op)) 20) as [Hle|Hgt].
    + left. by rewrite displayableTopic_short.
    + right. by destruct (displayableTopic_long _ Hgt).
  - apply displayableTopic_length.
Qed.

(** C10, counterexample — the claim as stated fails on a topic that holds a
    newline: for the topic
    "a", newline, "b" (three characters, so not truncated) the art splits into
    four newline-separated lines, of lengths 7, 3, 3 and 7. *)
Lemma fallback_art_newline_in_topic :
  let topic := [97; 10; 98]%N in
  displayableTopic topic = topic
  /\ lines (art (createFallbackArt topic))
     = [ topBorder topic; [BOX_VERTICAL; 32; 97]%N; [98; 32; BOX_VERTICAL]%N;
         bottomBorder topic ]
  /\ length (lines (art (createFallbackArt topic))) = 4
  /\ length <$> lines (art (createFallbackArt topic)) = [7; 3; 3; 7].
Proof. vm_compute. done. Qed.

(** C10 (amended) — for every topic whose label holds no newline, the
    fallback art consists of exactly three newline-separated lines, the top
    border, the middle row and the bottom border, each as long as the label
    plus four (two border characters and two padding spaces). The label is
    the topic itself whenever the topic is at most 20 characters long, and is
    the first 17 characters plus "..." only when it is longer than 20. *)
Theorem fallback_art_three_lines (topic : jsstring)
    (Hnl : LF ∉ displayableTopic topic) :
  let label := displayableTopic topic in
  let rows := lines (art (createFallbackArt topic)) in
  rows = [topBorder topic; middle topic; bottomBorder topic]
  /\ length rows = 3
  /\ Forall (fun row => length row = length label + 4) rows
  /\ (length topic <= 20 -> label = topic)
  /\ (20 < length topic -> label = take 17 topic ++ js "...")
  /\ (label <> topic -> 20 < length topic).
Proof.
  cbv zeta.
  assert (Hrows : lines (art (createFallbackArt topic))
                  = [topBorder topic; middle topic; bottomBorder topic]).
  { destruct (borders_no_newline topic) as [Htop Hbot].
    assert (Hmid : LF ∉ middle topic).
    { unfold middle, paddedTopic. change (js " ") with [32%N]. intros Hin.
      decompose_list_elem_of; try discriminate; done. }
    change (art (createFallbackArt topic))
      with (topBorder topic ++ [LF] ++ middle topic ++ [LF] ++ bottomBorder topic).
    by apply lines_three. }
  rewrite Hrows. repeat split.
  - destruct (border_lengths topic) as (Ht & Hm & Hb).
    repeat constructor; done.
  - apply displayableTopic_short.
  - intros Hlen. by destruct (displayableTopic_long topic Hlen).
  - intros Hne. destruct (Nat.le_gt_cases (length topic) 20) as [Hle|Hgt]; [|done].
    by rewrite displayableTopic_short in Hne.
Qed.

Lemma fallback_art_three_lines_witness :
  let topic := js "Supercalifragilisticexpialidocious" in
  (LF ∉ displayableTopic topic)
  /\ lines (art (createFallbackArt topic))
     = [topBorder topic; middle topic; bottomBorder topic]
  /\ displayableTopic topic = js "Supercalifragilis...".
Proof.
  simpl.
  assert (Hnl : LF ∉ displayableTopic (js "Supercalifragilisticexpialidocious")).
  { apply (bool_decide_unpack _). vm_compute. exact I. }
  split; [exact Hnl|].
  split; [exact (proj1 (fallback_art_three_lines _ Hnl))|reflexivity].
Defined.

(** ** History *)

Section History.
Context `{StringCase} `{NumberMinus}.

Lemma historyUpdater_skip (topic : jsstring) (prev : list jsstring) :
  toLowerCase <$> last prev = Some (toLowerCase topic) ->
  historyUpdater topic prev = prev.
Proof. intros Hl. unfold historyUpdater. by rewrite decide_True. Qed.

Lemma historyUpdater_push (topic : jsstring) (prev : list jsstring) :
  toLowerCase <$> last prev <> Some (toLowerCase topic) ->
  historyUpdater topic prev
  = drop (length (prev ++ [topic]) - 15) (prev ++ [topic]).
Proof.
  intros Hl. unfold historyUpdater. rewrite decide_False by done.
  destruct (Nat.ltb_spec 15 (length (prev ++ [topic]))) as [Hlt|Hle]; [done|].
  replace (length (prev ++ [topic]) - 15) with 0 by lia. done.
Qed.

Lemma historyUpdater_length (topic : jsstring) (prev : list jsstring) :
  length prev <= 15 -> length (historyUpdater topic prev) <= 15.
Proof.
  intros Hlen. unfold historyUpdater. case_decide; [done|].
  destruct (Nat.ltb_spec 15 (length (prev ++ [topic]))); [|done].
  rewrite length_drop. lia.
Qed.

Lemma noAdjacentDuplicates_drop (n : nat) (h : list jsstring) :
  noAdjacentDuplicates h -> noAdjacentDuplicates (drop n h).
Proof.
  intros Hh i a b Ha Hb. rewrite lookup_drop in Ha, Hb.
  apply (Hh (n + i) a b); [done|]. by rewrite <- Nat.add_succ_r.
Qed.

Lemma noAdjacentDuplicates_snoc (topic : jsstring) (prev : list jsstring) :
  noAdjacentDuplicates prev ->
  toLowerCase <$> last prev <> Some (toLowerCase topic) ->
  noAdjacentDuplicates (prev ++ [topic]).
Proof.
  intros Hprev Hl i a b Ha Hb.
  destruct (Nat.lt_ge_cases (S i) (length prev)) as [Hlt|Hge].
  - rewrite lookup_app_l in Ha, Hb by lia. by apply (Hprev i).
  - assert (Hi : S i = length prev).
    { apply lookup_lt_Some in Hb. rewrite length_app in Hb. simpl in Hb. lia. }
    rewrite lookup_app_l in Ha by lia.
    rewrite Hi, lookup_app_r, Nat.sub_diag in Hb by lia.
    injection Hb as <-.
    intros Heq. apply Hl. rewrite last_lookup, <- Hi. simpl.
    by rewrite Ha, <- Heq.
Qed.

Lemma historyUpdater_noAdjacentDuplicates
    (topic : jsstring) (prev : list jsstring) :
  noAdjacentDuplicates prev -> noAdjacentDuplicates (historyUpdater topic prev).
Proof.
  intros Hprev. unfold historyUpdater. case_decide; [done|].
  pose proof (noAdjacentDuplicates_snoc topic prev Hprev) as Hsnoc.
  destruct (15 <? length (prev ++ [topic])); [apply noAdjacentDuplicates_drop|];
    by apply Hsnoc.
Qed.

Lemma history_applyEffects (es : list Effect) (st : AppState) :
  history (applyEffects es st) = historyAfter es (history st).
Proof.
  unfold applyEffects, historyAfter. revert st.
  induction es as [|e es IH]; intros st; [done|].
  simpl. rewrite IH. by destruct st, e.
Qed.

Lemma historyAfter_app (es1 es2 : list Effect) (h : list jsstring) :
  historyAfter (es1 ++ es2) h = historyAfter es2 (historyAfter es1 h).
Proof. apply fold_left_app. Qed.

Lemma historyAfter_invariant (es : list Effect) (h : list jsstring) :
  historyWritesAreUpdaters es ->
  length h <= 15 /\ noAdjacentDuplicates h ->
  length (historyAfter es h) <= 15 /\ noAdjacentDuplicates (historyAfter es h).
Proof.
  unfold historyWritesAreUpdaters, historyAfter. intros Hes. revert h.
  induction Hes as [|e es He _ IH]; intros h [Hlen Hdup]; [done|].
  simpl. apply IH. destruct e; try done.
  destruct He as [topic ->].
  split; [by apply historyUpdater_length|by apply historyUpdater_noAdjacentDuplicates].
Qed.

Lemma fetchFinally_updaters (op : FetchOp) (ok : bool) (now : Q) :
  historyWritesAreUpdaters (fetchFinally op ok now).
Proof.
  unfold fetchFinally, historyWritesAreUpdaters.
  destruct (isCancelled op), ok; repeat constructor. by exists (opTopic op).
Qed.

Lemma fetchStep_updaters (now : Q) (op : FetchOp) (ev : FetchEvent) :
  historyWritesAreUpdaters (snd (fetchStep now op ev)).
Proof.
  destruct ev; simpl;
    repeat match goal with
      | |- context [if ?b then _ else _] => destruct b; simpl
      end;
    try (by repeat constructor);
    try apply fetchFinally_updaters;
    unfold fetchCatch;
    repeat match goal with
      | |- context [if ?b then _ else _] => destruct b; simpl
      end;
    try apply fetchFinally_updaters;
    repeat (apply Forall_cons; split; [done|]); apply fetchFinally_updaters.
Qed.

Lemma fetchRun_updaters (op : FetchOp) (evs : list (Q * FetchEvent)) :
  historyWritesAreUpdaters (snd (fetchRun op evs)).
Proof.
  revert op. induction evs as [|[now ev] evs IH]; intros op; [constructor|].
  simpl. pose proof (fetchStep_updaters now op ev) as Hstep.
  destruct (fetchStep now op ev) as [op1 es1].
  specialize (IH op1). destruct (fetchRun op1 evs) as [op2 es2].
  by apply Forall_app.
Qed.

Lemma runEffects_updaters (r : TopicRun) :
  historyWritesAreUpdaters (runEffects r).
Proof.
  unfold runEffects, topicEffect.
  destruct (truthy (runTopic r)); simpl; [|constructor].
  repeat (constructor; [done|]). apply fetchRun_updaters.
Qed.

Lemma afterRuns_invariant (runs : list TopicRun) (st : AppState) :
  length (history st) <= 15 /\ noAdjacentDuplicates (history st) ->
  length (history (afterRuns runs st)) <= 15
  /\ noAdjacentDuplicates (history (afterRuns runs st)).
Proof.
  revert st. induction runs as [|r runs IH]; intros st Hst; [done|].
  simpl. apply IH. rewrite history_applyEffects.
  by apply historyAfter_invariant; [apply runEffects_updaters|].
Qed.

End History.

(** ** The topic effect *)

(** From here on the string tests are used through their lemmas only. *)
Arguments startsWith : simpl never.
Arguments js : simpl never.

Section Fetch.
Context `{StringCase} `{NumberMinus}.

(** Case analysis on the flags and tests [fetchStep] branches on. *)
Ltac fetch_cases op :=
  destruct op as [? ? [] ? ? [] []];
  unfold fetchStep, fetchCatch, fetchFinally; simpl in *;
  repeat match goal with
    | |- context [if startsWith ?c ?p then _ else _] =>
        destruct (startsWith c p) eqn:?; simpl
    | |- context [if truthy ?s then _ else _] =>
        destruct (truthy s) eqn:?; simpl
    end.

Lemma fetchStep_opTopic (now : Q) (op : FetchOp) (ev : FetchEvent) :
  opTopic (fst (fetchStep now op ev)) = opTopic op.
Proof. destruct ev; fetch_cases op; done. Qed.

(** Once the flag is set it stays set, and the run writes nothing. *)
Lemma fetchStep_cancelled (now : Q) (op : FetchOp) (ev : FetchEvent) :
  isCancelled op = true ->
  isCancelled (fst (fetchStep now op ev)) = true
  /\ snd (fetchStep now op ev) = [].
Proof. intros Hc. destruct ev; fetch_cases op; done. Qed.

Lemma fetchRun_cancelled (op : FetchOp) (evs : list (Q * FetchEvent)) :
  isCancelled op = true ->
  isCancelled (fst (fetchRun op evs)) = true /\ snd (fetchRun op evs) = [].
Proof.
  revert op. induction evs as [|[now ev] evs IH]; intros op Hc; [done|].
  simpl. destruct (fetchStep_cancelled now op ev Hc) as [Hc1 Hes1].
  destruct (fetchStep now op ev) as [op1 es1]. simpl in Hc1, Hes1.
  destruct (IH op1 Hc1) as [Hc2 Hes2].
  destruct (fetchRun op1 evs) as [op2 es2]. simpl in *. by subst.
Qed.

Lemma fetchRun_app (op : FetchOp) (evs1 evs2 : list (Q * FetchEvent)) :
  fetchRun op (evs1 ++ evs2)
  = let '(op1, es1) := fetchRun op evs1 in
    let '(op2, es2) := fetchRun op1 evs2 in
    (op2, es1 ++ es2).
Proof.
  revert op. induction evs1 as [|[now ev] evs1 IH]; intros op; simpl.
  - by destruct (fetchRun op evs2).
  - destruct (fetchStep now op ev) as [op1 es1]. rewrite IH.
    destruct (fetchRun op1 evs1) as [op2 es2].
    destruct (fetchRun op2 evs2) as [op3 es3]. by rewrite app_assoc.
Qed.

(** A run that is not cancelled stays so until its cleanup is called. *)
Lemma fetchStep_live (now : Q) (op : FetchOp) (ev : FetchEvent) :
  ev <> Cleanup ->
  isCancelled (fst (fetchStep now op ev)) = isCancelled op.
Proof. intros Hev. destruct ev; fetch_cases op; done. Qed.

(** After the loop has been left, the stream changes nothing any more. *)
Lemma fetchStep_left (now : Q) (op : FetchOp) (ev : FetchEvent) :
  streaming op = false ->
  let op' := fst (fetchStep now op ev) in
  streaming op' = false /\ success op' = success op
  /\ accumulatedContent op' = accumulatedContent op
  /\ Forall (fun e => match e with SetAsciiArt _ | ConsoleError _ _ => True
                                 | _ => False end)
            (snd (fetchStep now op ev)).
Proof.
  intros Hs. destruct ev; fetch_cases op; try done;
    repeat split; repeat constructor.
Qed.

Lemma fetchRun_left (op : FetchOp) (evs : list (Q * FetchEvent)) :
  streaming op = false ->
  let op' := fst (fetchRun op evs) in
  streaming op' = false /\ success op' = success op
  /\ accumulatedContent op' = accumulatedContent op
  /\ Forall (fun e => match e with SetAsciiArt _ | ConsoleError _ _ => True
                                 | _ => False end)
            (snd (fetchRun op evs)).
Proof.
  revert op. induction evs as [|[now ev] evs IH]; intros op Hs; simpl.
  - by repeat split.
  - destruct (fetchStep_left now op ev Hs) as (Hs1 & Hok1 & Hacc1 & Hes1).
    destruct (fetchStep now op ev) as [op1 es1]. simpl in *.
    destruct (IH op1 Hs1) as (Hs2 & Hok2 & Hacc2 & Hes2).
    destruct (fetchRun op1 evs) as [op2 es2]. simpl in *.
    repeat split; try congruence. by apply Forall_app.
Qed.

Lemma historyAfter_art_only (es : list Effect) (h : list jsstring) :
  Forall (fun e => match e with SetAsciiArt _ | ConsoleError _ _ => True
                              | _ => False end) es ->
  historyAfter es h = h.
Proof.
  intros Hes. induction Hes as [|e es He _ IH]; [done|].
  unfold historyAfter in *. simpl. by destruct e.
Qed.

Lemma fetchStep_successMeansContent (now : Q) (op : FetchOp) (ev : FetchEvent) :
  successMeansContent op -> successMeansContent (fst (fetchStep now op ev)).
Proof.
  unfold successMeansContent. intros Hop.
  destruct ev; fetch_cases op; try done;
    first [ by destruct (Hop eq_refl)
          | intros Hok; by destruct (Hop Hok)
          | intros Ht; split; [by apply truthy_true|done] ].
Qed.

Lemma fetchRun_successMeansContent (op : FetchOp) (evs : list (Q * FetchEvent)) :
  successMeansContent op -> successMeansContent (fst (fetchRun op evs)).
Proof.
  revert op. induction evs as [|[now ev] evs IH]; intros op Hop; [done|].
  simpl. pose proof (fetchStep_successMeansContent now op ev Hop) as Hop1.
  destruct (fetchStep now op ev) as [op1 es1]. simpl in Hop1.
  specialize (IH op1 Hop1). by destruct (fetchRun op1 evs).
Qed.

(** What a run that is never cancelled does to the history: the updater of
    its topic is applied once if the loop is left with [success], and the
    history is left alone otherwise. *)
Lemma fetchRun_history (op : FetchOp) (evs : list (Q * FetchEvent))
    (h : list jsstring) :
  successMeansContent op ->
  isCancelled op = false -> Cleanup ∉ evs.*2 ->
  historyAfter (snd (fetchRun op evs)) h
  = if streaming op && success (fst (fetchRun op evs))
    then historyUpdater (opTopic op) h else h.
Proof.
  revert op h. induction evs as [|[now ev] evs IH]; intros op h Hop Hc Hevs.
  { simpl. destruct (streaming op) eqn:Hs, (success op) eqn:Hok; try done.
    destruct (Hop Hok) as [_ Hs']. congruence. }
  rewrite fmap_cons in Hevs. apply not_elem_of_cons in Hevs as [Hev Hevs].
  simpl in Hev. simpl fetchRun.
  pose proof (fetchStep_live now op ev ltac:(congruence)) as Hc1.
  pose proof (fetchStep_opTopic now op ev) as Ht1.
  pose proof (fetchStep_successMeansContent now op ev Hop) as Hop1.
  destruct (streaming op) eqn:Hs.
  2:{ destruct (fetchRun_left op ((now, ev) :: evs) Hs) as (_ & _ & _ & Hes).
      simpl in Hes. destruct (fetchStep now op ev) as [op1 es1].
      destruct (fetchRun op1 evs) as [op2 es2]. simpl in *.
      by apply historyAfter_art_only. }
  assert (Hstep :
    (streaming (fst (fetchStep now op ev)) = true
     /\ historyAfter (snd (fetchStep now op ev)) h = h)
    \/ (streaming (fst (fetchStep now op ev)) = false
        /\ historyAfter (snd (fetchStep now op ev)) h
           = if success (fst (fetchStep now op ev))
             then historyUpdater (opTopic op) h else h)).
  { destruct ev; try done; unfold fetchStep, fetchCatch, fetchFinally;
      rewrite ?Hs, ?Hc; simpl.
    - left. by destruct (artPending op).
    - left. by destruct (artPending op).
    - destruct (startsWith chunk (js "Error:")); simpl; rewrite ?Hs, ?Hc;
        [by right|by left].
    - right. by destruct (truthy (accumulatedContent op)).
    - by right. }
  destruct (fetchStep now op ev) as [op1 es1]. simpl in *.
  rewrite Hc in Hc1. specialize (IH op1).
  destruct Hstep as [[Hs1 Hh1]|[Hs1 Hh1]].
  - specialize (IH h Hop1 Hc1 Hevs). rewrite Hs1, Ht1 in IH.
    destruct (fetchRun op1 evs) as [op2 es2]. simpl in *.
    by rewrite historyAfter_app, Hh1.
  - destruct (fetchRun_left op1 evs Hs1) as (_ & Hok & _ & Hes).
    destruct (fetchRun op1 evs) as [op2 es2]. simpl in *.
    rewrite historyAfter_app, Hh1, Hok. by apply historyAfter_art_only.
Qed.

(** Whatever a run receives, it changes the history by at most one
    application of the updater of its topic. *)
Lemma fetchRun_history_any (op : FetchOp) (evs : list (Q * FetchEvent))
    (h : list jsstring) :
  historyAfter (snd (fetchRun op evs)) h = h
  \/ historyAfter (snd (fetchRun op evs)) h = historyUpdater (opTopic op) h.
Proof.
  revert op h. induction evs as [|[now ev] evs IH]; intros op h; [by left|].
  simpl.
  assert (Hstep :
    historyAfter (snd (fetchStep now op ev)) h = h
    \/ (streaming (fst (fetchStep now op ev)) = false
        /\ historyAfter (snd (fetchStep now op ev)) h
           = historyUpdater (opTopic op) h)).
  { destruct ev; fetch_cases op; auto. }
  pose proof (fetchStep_opTopic now op ev) as Ht1.
  destruct (fetchStep now op ev) as [op1 es1]. simpl in *.
  destruct Hstep as [Hh1|[Hs1 Hh1]].
  - specialize (IH op1 h). rewrite Ht1 in IH.
    destruct (fetchRun op1 evs) as [op2 es2]. simpl in *.
    by rewrite historyAfter_app, Hh1.
  - destruct (fetchRun_left op1 evs Hs1) as (_ & _ & _ & Hes).
    destruct (fetchRun op1 evs) as [op2 es2]. simpl in *.
    right. rewrite historyAfter_app, Hh1. by apply historyAfter_art_only.
Qed.

(** A stream of chunks none of which begins with "Error:", then its end,
    leaves the loop with [success] exactly when some content arrived. *)
Lemma fetchRun_chunks (op : FetchOp) (chunks : list (Q * jsstring)) (now : Q) :
  streaming op = true -> isCancelled op = false ->
  Forall (fun c => startsWith c.2 (js "Error:") = false) chunks ->
  let op' := fst (fetchRun op ((prod_map id StreamChunk <$> chunks)
                                 ++ [(now, StreamEnd)])) in
  accumulatedContent op' = accumulatedContent op ++ concat chunks.*2
  /\ success op' = truthy (accumulatedContent op ++ concat chunks.*2).
Proof.
  intros Hs Hc Hchunks. revert op Hs Hc.
  induction Hchunks as [|[t c] chunks Hhd _ IH]; intros op Hs Hc; simpl.
  - rewrite Hs. simpl. by rewrite app_nil_r.
  - simpl in Hhd. rewrite Hs, Hc, Hhd. simpl.
    specialize (IH (accumulate op c) Hs Hc). simpl in IH.
    destruct (fetchRun (accumulate op c) _) as [op2 es2]. simpl in *.
    by rewrite <- !app_assoc in IH.
Qed.



(** A run for a non-empty topic is the reset followed by its resumptions;
    for the empty topic the effect returns at once. *)
Lemma run_unfold (r : TopicRun) :
  (runTopic r = []
   /\ runEffects r = [] /\ runClosure r = None)
  \/ (runTopic r <> []
      /\ runEffects r
         = snd (fetchContentAndArt (runTopic r) (runStart r))
             ++ snd (fetchRun (fst (fetchContentAndArt (runTopic r) (runStart r)))
                              (runEvents r))
      /\ runClosure r
         = Some (fst (fetchRun (fst (fetchContentAndArt (runTopic r) (runStart r)))
                               (runEvents r)))).
Proof.
  unfold runEffects, runClosure, topicEffect.
  destruct (runTopic r) as [|c topic]; [by left|by right].
Qed.

Lemma historyAfter_reset (topic : jsstring) (now : Q) (h : list jsstring) :
  historyAfter (snd (fetchContentAndArt topic now)) h = h.
Proof. done. Qed.

(** C2 — after any sequence of runs of the topic effect, whatever each of
    them received, the history holds at most 15 entries and no two
    neighbours equal up to case; each run changes it by at most one
    application of the updater of its topic. A run that completed
    successfully, which it does with non-empty content only (and does when
    its stream ends after chunks that make up non-empty content, none of them
    an error), applies that updater: the history is left as it is when its
    last entry equals the topic up to case, and otherwise the topic is
    appended and the result cut down to its last 15 entries. *)
Theorem history_capped_and_deduplicated :
  (forall runs : list TopicRun,
     let h := history (afterRuns runs initialState) in
     length h <= 15 /\ noAdjacentDuplicates h)
  /\ (forall (st : AppState) (r : TopicRun),
        let h' := history (applyEffects (runEffects r) st) in
        h' = history st \/ h' = historyUpdater (runTopic r) (history st))
  /\ (forall (st : AppState) (r : TopicRun),
        completedSuccessfully r ->
        (exists op, runClosure r = Some op /\ accumulatedContent op <> [])
        /\ history (applyEffects (runEffects r) st)
           = historyUpdater (runTopic r) (history st))
  /\ (forall (topic : jsstring) (start now : Q) (chunks : list (Q * jsstring)),
        topic <> [] ->
        Forall (fun c => startsWith c.2 (js "Error:") = false) chunks ->
        concat chunks.*2 <> [] ->
        completedSuccessfully
          {| runTopic := topic; runStart := start;
             runEvents := (prod_map id StreamChunk <$> chunks)
                            ++ [(now, StreamEnd)] |})
  /\ (forall (topic : jsstring) (prev : list jsstring),
        let h := historyUpdater topic prev in
        (toLowerCase <$> last prev = Some (toLowerCase topic) -> h = prev)
        /\ (toLowerCase <$> last prev <> Some (toLowerCase topic) ->
            h = drop (length (prev ++ [topic]) - 15) (prev ++ [topic])
            /\ last h = Some topic)).
Proof.
  split; [|split; [|split; [|split]]].
  - intros runs. apply afterRuns_invariant. simpl. split; [lia|].
    intros i a b Ha. by rewrite lookup_nil in Ha.
  - intros st r. cbv zeta. rewrite history_applyEffects.
    destruct (run_unfold r) as [(_ & -> & _)|(_ & -> & _)]; [by left|].
    rewrite historyAfter_app, historyAfter_reset.
    apply (fetchRun_history_any (fst (fetchContentAndArt _ _))).
  - intros st r [Hevs Hok].
    destruct (run_unfold r) as [(_ & _ & Hcl)|(_ & Hes & Hcl)];
      rewrite Hcl in Hok; [done|].
    injection Hok as Hok. rewrite Hcl, Hes.
    assert (Hop0 : successMeansContent
                     (fst (fetchContentAndArt (runTopic r) (runStart r))))
      by done.
    split.
    + eexists. split; [done|].
      by apply (fetchRun_successMeansContent _ (runEvents r) Hop0).
    + rewrite history_applyEffects, historyAfter_app, historyAfter_reset.
      rewrite (fetchRun_history _ (runEvents r) _ Hop0 eq_refl Hevs).
      change (fst (fetchContentAndArt (runTopic r) (runStart r)))
        with {| opTopic := runTopic r; startTime := runStart r;
                isCancelled := false; accumulatedContent := js "";
                success := false; streaming := true; artPending := true |}.
      by rewrite Hok.
  - intros topic start now chunks Htopic Hchunks Hcontent. split.
    + cbn [runEvents]. rewrite fmap_app, elem_of_app. intros [Hin|Hin].
      * rewrite <- list_fmap_compose in Hin.
        apply list_elem_of_fmap in Hin as [[t c] [Heq _]]. discriminate Heq.
      * apply list_elem_of_singleton in Hin. discriminate Hin.
    + destruct (run_unfold {| runTopic := topic; runStart := start;
                              runEvents := (prod_map id StreamChunk <$> chunks)
                                             ++ [(now, StreamEnd)] |})
        as [(Hnil & _)|(_ & _ & ->)]; [done|].
      cbn [runTopic runStart runEvents fmap option_fmap option_map]. f_equal.
      destruct (fetchRun_chunks
                  (fst (fetchContentAndArt topic start)) chunks now
                  eq_refl eq_refl Hchunks) as [_ ->].
      by apply truthy_true.
  - intros topic prev. cbv zeta. split.
    + apply historyUpdater_skip.
    + intros Hne. rewrite (historyUpdater_push topic prev Hne).
      split; [done|].
      rewrite length_app. simpl.
      destruct (Nat.le_gt_cases (length prev + 1) 15) as [Hle|Hgt].
      * replace (length prev + 1 - 15) with 0 by lia. simpl. apply last_snoc.
      * rewrite drop_app_le by lia. apply last_snoc.
Qed.

(** In every reachable state the live run is not cancelled and every stale
    run is. *)
Lemma reachable_flags (app : App) :
  reachable app ->
  (forall op, live app = Some op -> isCancelled op = false)
  /\ Forall (fun op => isCancelled op = true) (stale app).
Proof.
  induction 1 as [now|now es app _ [IHlive IHstale]
                 |now ev app _ [IHlive IHstale] Hev
                 |now i ev app _ [IHlive IHstale] Hev].
  - unfold mount, topicEffect. simpl. split; [by intros op [= <-]|constructor].
  - unfold commit. case_decide; [done|].
    unfold topicEffect.
    destruct (truthy (currentTopic (applyEffects es (state app)))); simpl.
    + split; [by intros op [= <-]|].
      destruct (live app); [by constructor|done].
    + split; [done|]. destruct (live app); [by constructor|done].
  - unfold resumeLive. destruct (live app) as [op|] eqn:Hlive.
    2:{ simpl. rewrite Hlive. by split. }
    pose proof (fetchStep_live now op ev Hev) as Hc.
    destruct (fetchStep now op ev) as [op' es]. simpl in *.
    split; [|done]. intros ? [= <-]. rewrite Hc. by apply IHlive.
  - unfold resumeStale. destruct (stale app !! i) as [op|] eqn:Hi; [|done].
    assert (Hop : isCancelled op = true).
    { by apply (Forall_lookup_1 _ _ _ _ IHstale Hi). }
    destruct (fetchStep_cancelled now op ev Hop) as [Hc _].
    destruct (fetchStep now op ev) as [op' es]. simpl in *.
    split; [done|]. by apply Forall_insert.
Qed.

(** C3 — once the cleanup of a run has been called, the run writes nothing
    any more, whatever it receives from the stream or from the art call: its
    whole trace is the trace up to the cleanup. A change of topic calls the
    cleanup of the live run and files it among the stale ones; resuming a
    cancelled stale run leaves the component state as it is, and in every
    reachable state of the component all stale runs are cancelled. *)
Theorem stale_run_writes_nothing :
  (forall (op : FetchOp) (before after : list (Q * FetchEvent)) (t : Q),
     snd (fetchRun op (before ++ (t, Cleanup) :: after))
     = snd (fetchRun op before)
     /\ isCancelled (fst (fetchRun op (before ++ (t, Cleanup) :: after))) = true)
  /\ (forall (now : Q) (es : list Effect) (app : App) (op : FetchOp),
        currentTopic (applyEffects es (state app)) <> currentTopic (state app) ->
        live app = Some op ->
        stale (fst (commit now es app)) = cancel op :: stale app)
  /\ (forall (now : Q) (i : nat) (ev : FetchEvent) (app : App) (op : FetchOp),
        stale app !! i = Some op -> isCancelled op = true ->
        let app' := fst (resumeStale now i ev app) in
        snd (resumeStale now i ev app) = []
        /\ state app' = state app /\ live app' = live app
        /\ exists op', stale app' !! i = Some op' /\ isCancelled op' = true)
  /\ (forall (app : App), reachable app ->
        forall (now : Q) (i : nat) (ev : FetchEvent),
          snd (resumeStale now i ev app) = []
          /\ state (fst (resumeStale now i ev app)) = state app).
Proof.
  split; [|split; [|split]].
  - intros op before after t. rewrite fetchRun_app.
    destruct (fetchRun op before) as [op1 es1].
    change (fetchRun op1 ((t, Cleanup) :: after))
      with (let '(op2, es2) := fetchRun (cancel op1) after in (op2, [] ++ es2)).
    destruct (fetchRun_cancelled (cancel op1) after eq_refl) as [Hc Hes].
    destruct (fetchRun (cancel op1) after) as [op2 es2]. simpl in *.
    subst es2. by rewrite app_nil_r.
  - intros now es app op Hne Hlive. unfold commit.
    rewrite decide_False by done. rewrite Hlive.
    by destruct (topicEffect _ now).
  - intros now i ev app op Hi Hc. unfold resumeStale. rewrite Hi.
    destruct (fetchStep_cancelled now op ev Hc) as [Hc' Hes].
    destruct (fetchStep now op ev) as [op' es]. simpl in *. subst es.
    repeat split. exists op'. split; [|done].
    apply list_lookup_insert_eq. by apply lookup_lt_Some in Hi.
  - intros app Happ now i ev. unfold resumeStale.
    destruct (stale app !! i) as [op|] eqn:Hi; [|done].
    destruct (reachable_flags app Happ) as [_ Hstale].
    assert (Hop : isCancelled op = true).
    { by apply (Forall_lookup_1 _ _ _ _ Hstale Hi). }
    destruct (fetchStep_cancelled now op ev Hop) as [_ Hes].
    destruct (fetchStep now op ev) as [op' es]. simpl in *. by subst es.
Qed.

End Fetch.

Section FetchExamples.
#[local] Existing Instance basicLatinCase.
#[local] Existing Instance doubleArithmetic.



(** Fifteen topics "a" to "o": "O" is skipped, "p" pushes "a" out. *)
Example historyUpdater_example :
  let h := (fun n => [N.of_nat (97 + n)]) <$> seq 0 15 in
  historyUpdater (js "O") h = h
  /\ historyUpdater (js "p") h = drop 1 h ++ [js "p"]
  /\ length (historyUpdater (js "p") h) = 15.
Proof. vm_compute. done. Qed.

(** A run for "Rocq" that receives two chunks and the end of the stream. *)
Example history_push_example :
  let r := {| runTopic := js "Rocq"; runStart := 0;
              runEvents := [ (100%Q, StreamChunk (js "A proof "));
                             (200%Q, ArtRejected OtherValue);
                             (300%Q, StreamChunk (js "assistant."));
                             (400%Q, StreamEnd) ] |} in
  history (afterRuns [r] initialState) = [js "Rocq"]
  /\ history (afterRuns [r; r] initialState) = [js "Rocq"]
  /\ (success <$> runClosure r) = Some true.
Proof. vm_compute. done. Qed.

End FetchExamples.

(** ** Selecting a topic *)

Section Selection.
Context `{StringCase} `{NumberMinus}.

Lemma handleSearch_handleWordClick (st : AppState) (topic : jsstring) :
  handleSearch st topic = handleWordClick st topic.
Proof. done. Qed.

(** The search form, when no load is in progress, selects as a click does. *)
Lemma submitSearch_clickWord (now : Q) (query : jsstring) (app : App) :
  isLoading (state app) = false ->
  submitSearch now query app = clickWord now query app.
Proof.
  intros Hload. unfold submitSearch, clickWord, handleSubmit. rewrite Hload.
  unfold handleWordClick. destruct (truthy (trim query)) eqn:Hq; simpl.
  - unfold handleSearch. rewrite trim_idempotent, Hq. by rewrite app_nil_r.
  - done.
Qed.

(** C4, as stated, fails for a topic equal up to case to the current one
    (and for a blank one, and for a submit during a load): the handlers then
    set no topic and nothing is reset. What holds (amended) — for every topic
    whose trimmed form is non-empty and differs up to case from the current
    topic, a word click (and a search submit while no load is in progress)
    makes the trimmed topic current and has the content, the error, the art,
    the generation time and the four translation results cleared and
    [isLoading] set before the definition stream is even requested; the new
    run starts with nothing accumulated, and the previous one is cancelled. *)
Theorem topic_selection_resets (now : Q) (T : jsstring) (app : App)
    (Hnonempty : trim T <> [])
    (Hnew : toLowerCase (trim T) <> toLowerCase (currentTopic (state app))) :
  let topic := trim T in
  let app' := fst (clickWord now T app) in
  let st' := state app' in
  snd (clickWord now T app)
  = [SetCurrentTopic topic] ++ resetWrites
      ++ [CallGenerateAsciiArt topic; CallStreamDefinition topic]
  /\ currentTopic st' = topic
  /\ content st' = js "" /\ error st' = None /\ asciiArt st' = None
  /\ generationTime st' = None
  /\ translatedContent st' = None /\ translationError st' = None
  /\ isTranslating st' = false /\ translatedLanguage st' = None
  /\ isLoading st' = true
  /\ history st' = history (state app)
  /\ targetLanguage st' = targetLanguage (state app)
  /\ live app' = Some (fst (fetchContentAndArt topic now))
  /\ (accumulatedContent <$> live app') = Some (js "")
  /\ stale app' = (cancel <$> option_list (live app)) ++ stale app
  /\ (isLoading (state app) = false ->
      submitSearch now T app = clickWord now T app).
Proof.
  cbv zeta. unfold clickWord, handleWordClick.
  apply truthy_true in Hnonempty. rewrite Hnonempty.
  rewrite bool_decide_eq_false_2 by done. simpl.
  unfold commit, applyEffects. simpl.
  assert (Hne : currentTopic (applyEffect (state app) (SetCurrentTopic (trim T)))
                <> currentTopic (state app)).
  { destruct (state app). simpl in *. congruence. }
  rewrite decide_False by done.
  unfold topicEffect.
  replace (currentTopic (applyEffect (state app) (SetCurrentTopic (trim T))))
    with (trim T) by by destruct (state app).
  rewrite Hnonempty. simpl.
  repeat (split; [by destruct (state app)|]).
  split; [by destruct (live app)|].
  intros Hload. rewrite (submitSearch_clickWord now T app Hload).
  unfold clickWord, handleWordClick, commit, applyEffects, topicEffect.
  rewrite Hnonempty, bool_decide_eq_false_2 by done. simpl.
  rewrite decide_False by done.
  replace (currentTopic (applyEffect (state app) (SetCurrentTopic (trim T))))
    with (trim T) by by destruct (state app).
  by rewrite Hnonempty.
Qed.

End Selection.

Section SelectionExamples.
#[local] Existing Instance basicLatinCase.
#[local] Existing Instance doubleArithmetic.

Lemma topic_selection_resets_witness :
  let app := fst (resumeLive 900 StreamEnd
               (fst (resumeLive 500 (StreamChunk (js "Hypertext is text.")) (mount 0)))) in
  content (state app) = js "Hypertext is text."
  /\ content (state (fst (clickWord 2000 (js " text ") app))) = js ""
  /\ isLoading (state (fst (clickWord 2000 (js " text ") app))) = true
  /\ currentTopic (state (fst (clickWord 2000 (js " text ") app))) = js "text".
Proof.
  cbv zeta.
  pose proof (topic_selection_resets 2000 (js " text ")
    (fst (resumeLive 900 StreamEnd
       (fst (resumeLive 500 (StreamChunk (js "Hypertext is text.")) (mount 0)))))
    ltac:(vm_compute; discriminate) ltac:(vm_compute; discriminate)) as Hthm.
  cbv zeta in Hthm.
  destruct Hthm as (_ & Htopic & Hcontent & _ & _ & _ & _ & _ & _ & _ & Hload & _).
  split; [reflexivity|]. split; [exact Hcontent|].
  split; [exact Hload|]. rewrite Htopic. reflexivity.
Defined.

(** C4, counterexample — the definition of "Hypertext" has been shown;
    selecting "hypertext", by a click or by the search form, sets no topic
    and resets nothing. *)
Lemma selecting_current_topic_resets_nothing :
  let app := fst (resumeLive 900 StreamEnd
               (fst (resumeLive 500 (StreamChunk (js "Hypertext is text.")) (mount 0)))) in
  currentTopic (state app) = js "Hypertext"
  /\ isLoading (state app) = false
  /\ content (state app) = js "Hypertext is text."
  /\ clickWord 2000 (js "hypertext") app = (app, [])
  /\ submitSearch 2000 (js " HYPERTEXT ") app = (app, [])
  /\ content (state (fst (clickWord 2000 (js "hypertext") app)))
     = js "Hypertext is text."
  /\ content (state (fst (clickWord 2000 (js "hypertext") app))) <> js "".
Proof. vm_compute. repeat split. discriminate. Qed.

End SelectionExamples.

(** ** The random topic *)

Lemma UNIQUE_WORDS_length : length UNIQUE_WORDS = 134.
Proof. vm_compute. reflexivity. Qed.

(** The curated list has no repeated entry, so the copy without duplicates
    is the list itself. *)
Lemma UNIQUE_WORDS_PREDEFINED : UNIQUE_WORDS = PREDEFINED_WORDS.
Proof. vm_compute. reflexivity. Qed.

Lemma UNIQUE_WORDS_NoDup : NoDup UNIQUE_WORDS.
Proof. apply (bool_decide_unpack _). vm_compute. exact I. Qed.

(** The subtraction of doubles rounds: for the doubles nearest to
    98765.4321 and 1234.5678 the difference stored is the double
    6702269960305823 * 2^-36, not the exact difference, which has more than
    53 bits. On integers of this size it is exact. *)
Example doubleMinus_rounds :
  let endTime := (3393554406758469 # 34359738368)%Q in
  let startTime := (5429686605511341 # 4398046511104)%Q in
  doubleMinus endTime startTime = (6702269960305823 # 68719476736)%Q
  /\ Qred (endTime - startTime) = (428945277459572691 # 4398046511104)%Q
  /\ doubleMinus 1200 500 = 700%Q.
Proof. vm_compute. done. Qed.

(** Rounding to the nearest integer errs by a half at most. *)
Lemma nearestInteger_bounds (n d : Z) :
  (0 < d)%Z -> (0 <= n)%Z ->
  (0 <= nearestInteger n d)%Z
  /\ (2 * (nearestInteger n d * d) <= 2 * n + d)%Z.
Proof.
  intros Hd Hn. unfold nearestInteger.
  pose proof (Z.div_mod n d ltac:(lia)) as Hdiv.
  pose proof (Z.mod_pos_bound n d Hd) as Hmod.
  assert (Hq : (0 <= n / d)%Z) by (apply Z.div_pos; lia).
  destruct (Z.ltb_spec (2 * (n mod d)) d), (Z.ltb_spec d (2 * (n mod d))),
    (Z.even (n / d)); split; nia.
Qed.

(** What [inUnitInterval] says. *)
Lemma Sample_bounds (x : Sample) :
  (0 <= mantissa x < 2 ^ 53)%Z /\ (-1074 <= exponent x <= -53)%Z.
Proof.
  pose proof (inUnitInterval x) as Hx.
  rewrite !andb_true_iff in Hx. destruct Hx as [[[H1 H2] H3] H4].
  apply Z.leb_le in H1, H3, H4. apply Z.ltb_lt in H2. lia.
Qed.

(** The double product of a Number below 1 by [n] is below [n]. *)
Lemma roundToDouble_lt (m e n : Z) :
  (0 <= m < 2 ^ 53)%Z -> (e <= -53)%Z -> (0 < n)%Z ->
  (0 <= floorDouble (roundToDouble (m * n) e) < n)%Z.
Proof.
  intros Hm He Hn. unfold floorDouble, roundToDouble. cbn [fst snd].
  set (p := (m * n)%Z). set (k := Z.max 0 (Z.log2 p - 52)).
  assert (Hp : (0 <= p)%Z) by (unfold p; nia).
  assert (Hk : (0 <= k)%Z) by (unfold k; lia).
  assert (Hpow : (0 < 2 ^ k)%Z) by (apply Z.pow_pos_nonneg; lia).
  destruct (nearestInteger_bounds p (2 ^ k) Hpow Hp) as [Hr0 Hr].
  (* the rounded product, scaled by 2^k, is below n * 2^53 *)
  assert (Hbound : (nearestInteger p (2 ^ k) * 2 ^ k < n * 2 ^ 53)%Z).
  { destruct (Z.le_gt_cases (Z.log2 p) 52) as [Hsmall|Hlarge].
    - assert (Hk0 : k = 0%Z) by (unfold k; lia).
      rewrite Hk0. change (2 ^ 0)%Z with 1%Z.
      unfold nearestInteger. rewrite Z.div_1_r, Z.mod_1_r.
      change (2 * 0 <? 1)%Z with true. cbv iota. unfold p. nia.
    - assert (Hk1 : k = (Z.log2 p - 52)%Z) by (unfold k; lia).
      assert (Hp0 : (0 < p)%Z).
      { destruct (Z.eq_dec p 0%Z) as [Hz|]; [|lia]. rewrite Hz in Hlarge.
        simpl in Hlarge. lia. }
      pose proof (Z.log2_spec p Hp0) as [Hlow _].
      replace (Z.log2 p) with (53 + (k - 1))%Z in Hlow by lia.
      rewrite Z.pow_add_r in Hlow by lia.
      assert (Hhalf : (2 ^ k = 2 * 2 ^ (k - 1))%Z).
      { rewrite <- Z.pow_succ_r by lia. f_equal. lia. }
      assert (0 < 2 ^ (k - 1))%Z by (apply Z.pow_pos_nonneg; lia).
      rewrite Hhalf in *. unfold p in *. nia. }
  set (r := nearestInteger p (2 ^ k)) in *.
  assert (Hexp : (2 ^ 53 <= 2 ^ (- e))%Z)
    by (apply Z.pow_le_mono_r; lia).
  destruct (Z.le_gt_cases (e + k) 0) as [Hneg|Hpos].
  - rewrite Z.shiftl_div_pow2 by lia.
    assert (Hs : (0 < 2 ^ (- (e + k)))%Z) by (apply Z.pow_pos_nonneg; lia).
    split; [apply Z.div_pos; lia|].
    apply Z.div_lt_upper_bound; [done|].
    assert (Hsplit : (2 ^ (- e) = 2 ^ (- (e + k)) * 2 ^ k)%Z).
    { rewrite <- Z.pow_add_r by lia. f_equal. lia. }
    nia.
  - rewrite Z.shiftl_mul_pow2 by lia.
    assert (Hs : (0 < 2 ^ (e + k))%Z) by (apply Z.pow_pos_nonneg; lia).
    assert (He' : (0 < 2 ^ (- e))%Z) by (apply Z.pow_pos_nonneg; lia).
    split; [nia|].
    assert (Hsplit : (2 ^ k = 2 ^ (e + k) * 2 ^ (- e))%Z).
    { rewrite <- Z.pow_add_r by lia. f_equal. lia. }
    nia.
Qed.

(** [Math.floor(Math.random() * n)] is an index below [n]: the rounding of
    the product never reaches [n]. *)
Lemma floorTimes_lt (x : Sample) (n : nat) : 0 < n -> floorTimes x n < n.
Proof.
  intros Hn. unfold floorTimes.
  destruct (Sample_bounds x) as [Hm He].
  pose proof (roundToDouble_lt (mantissa x) (exponent x) (Z.of_nat n)
                Hm ltac:(lia) ltac:(lia)) as Hlt.
  lia.
Qed.

Lemma pickWord_spec (g : Rng) :
  fst (pickWord g) ∈ UNIQUE_WORDS
  /\ drawn (snd (pickWord g)) = S (drawn g)
  /\ draws (snd (pickWord g)) = draws g.
Proof.
  unfold pickWord, Math_random. cbv beta iota zeta. cbn [fst snd drawn draws].
  split; [|done].
  apply list_elem_of_In, nth_In, floorTimes_lt.
  rewrite UNIQUE_WORDS_length. lia.
Qed.

(** The product is rounded before [Math.floor]: for the sample
    168044762215317 * 2^-52 the exact product with 134 is below 5 and the
    double product is 5, so the word drawn is "Clarity", the sixth of the
    list, and not "Fragmentation". *)
Example floorTimes_rounds :
  let x := {| mantissa := 336089524430634; exponent := -53;
              inUnitInterval := eq_refl |} in
  (mantissa x * 134 < 5 * 2 ^ 53)%Z
  /\ floorTimes x 134 = 5
  /\ fst (pickWord {| draws := fun _ => x; drawn := 0 |}) = js "Clarity".
Proof. vm_compute. done. Qed.

Arguments pickWord : simpl never.
Opaque UNIQUE_WORDS.

Section Random.
Context `{StringCase} `{NumberMinus}.

(** X18 — [handleRandom] passes exactly one topic to [setCurrentTopic].
    The candidate of the first draw is the word of the service, or on its
    failure one draw from the curated list. When the candidate equals, up to
    case, the topic of the render in which Random was pressed (the one the
    closure holds), it is not the topic set: exactly one more value of
    [Math.random] is drawn, and the word of the curated list it selects
    becomes the topic, without another comparison. Otherwise the candidate
    becomes the topic, nothing more is drawn, and the new topic differs up
    to case from the topic the closure holds. *)
Theorem random_topic_rerolls_once
    (st : AppState) (outcome : jsstring + Thrown) (g : Rng) :
  let candidate := fst (firstDraw outcome g) in
  let g1 := snd (firstDraw outcome g) in
  let es := fst (handleRandom st outcome g) in
  let g' := snd (handleRandom st outcome g) in
  match outcome with
  | inl randomWord => candidate = randomWord /\ g1 = g
  | inr _ => candidate ∈ UNIQUE_WORDS /\ drawn g1 = S (drawn g)
  end
  /\ if bool_decide (toLowerCase candidate = toLowerCase (currentTopic st))
     then topicsSet es = [fst (pickWord g1)]
          /\ fst (pickWord g1) ∈ UNIQUE_WORDS
          /\ g' = snd (pickWord g1)
          /\ drawn g' = S (drawn g1)
     else topicsSet es = [candidate]
          /\ toLowerCase candidate <> toLowerCase (currentTopic st)
          /\ g' = g1.
Proof.
  cbv zeta. unfold handleRandom, handleRandomResume, handleRandomStart, firstDraw.
  destruct outcome as [randomWord|e].
  - split; [done|]. cbn [fst snd].
    destruct (pickWord_spec g) as (Hin & Hdrawn & _).
    destruct (pickWord g) as [word g2]. cbn [fst snd] in *.
    destruct (bool_decide _) eqn:Hmatch; cbn [fst snd app topicsSet omap];
      [done|].
    by apply bool_decide_eq_false in Hmatch.
  - destruct (pickWord_spec g) as (Hin1 & Hdrawn1 & _).
    destruct (pickWord g) as [word1 g1]. cbn [fst snd] in *.
    split; [done|].
    destruct (pickWord_spec g1) as (Hin2 & Hdrawn2 & _).
    destruct (pickWord g1) as [word2 g2]. cbn [fst snd] in *.
    destruct (bool_decide _) eqn:Hmatch; cbn [fst snd app topicsSet omap];
      [done|].
    by apply bool_decide_eq_false in Hmatch.
Qed.

End Random.

Section RandomExamples.
#[local] Existing Instance basicLatinCase.
#[local] Existing Instance doubleArithmetic.

(** The service fails and both draws are 0: the first draw is "Balance",
    the current topic up to case, and the one re-roll draws it again. *)
Example random_reroll_example :
  let zero := {| mantissa := 0; exponent := -1074; inUnitInterval := eq_refl |} in
  let g := {| draws := fun _ => zero; drawn := 0 |} in
  let st := applyEffects [SetCurrentTopic (js "balance")] initialState in
  fst (firstDraw (inr OtherValue) g) = js "Balance"
  /\ topicsSet (fst (handleRandom st (inr OtherValue) g)) = [js "Balance"]
  /\ drawn (snd (handleRandom st (inr OtherValue) g)) = 2
  /\ topicsSet (fst (handleRandom st (inl (js "Entropy")) g)) = [js "Entropy"]
  /\ drawn (snd (handleRandom st (inl (js "Entropy")) g)) = 0.
Proof. vm_compute. done. Qed.

(** C5 — the random-topic action can set the current topic to itself on
    the first draw, with no re-roll: the comparison is with the topic of the
    render in which Random was pressed. The definitions of "Hypertext" and
    of "Balance" have been shown, so the History section has the button
    "Hypertext". Random is pressed on "Balance"; while the service is
    awaited the button "Hypertext" is pressed, and "Hypertext" becomes the
    topic; then the service answers "Hypertext". The closure compares with
    "Balance": the candidate, which matches the current topic, is the topic
    set, no value of [Math.random] is drawn, and the page is left as it is.
    The handler of the render the page is in by then re-rolls on the same
    answer. *)
Lemma random_answer_after_history_click :
  let zero := {| mantissa := 0; exponent := -1074; inUnitInterval := eq_refl |} in
  let g := {| draws := fun _ => zero; drawn := 0 |} in
  let shown :=
    fst (resumeLive 1900 StreamEnd
      (fst (resumeLive 1500 (StreamChunk (js "Balance is poise."))
         (fst (submitSearch 1000 (js "Balance")
            (fst (resumeLive 900 StreamEnd
               (fst (resumeLive 500 (StreamChunk (js "Hypertext is text."))
                  (mount 0)))))))))) in
  let pressed := fst (commit 2000 handleRandomStart shown) in
  let clicked := fst (clickWord 2100 (js "Hypertext") pressed) in
  let answer :=
    handleRandomResume (currentTopic (state shown)) (inl (js "Hypertext")) g in
  currentTopic (state shown) = js "Balance"
  /\ isLoading (state shown) = false
  /\ historyButtons (state pressed) = [js "Hypertext"]
  /\ currentTopic (state clicked) = js "Hypertext"
  /\ toLowerCase (js "Hypertext") = toLowerCase (currentTopic (state clicked))
  /\ topicsSet (fst answer) = [js "Hypertext"]
  /\ drawn (snd answer) = drawn g
  /\ commit 2200 (fst answer) clicked = (clicked, fst answer)
  /\ topicsSet (fst (handleRandomResume (currentTopic (state clicked))
                       (inl (js "Hypertext")) g))
     = [js "Balance"].
Proof. vm_compute. repeat split. Qed.

End RandomExamples.

(** ** Translation *)

(** C7 — [handleTranslate] on empty content does nothing: it starts no
    operation, calls no setter and does not call the translation service, so
    the component state, the four translation results among it, is left as
    it is. *)
Theorem translate_empty_content_noop (st : AppState)
    (Hempty : content st = js "") :
  handleTranslate st = (None, [])
  /\ filter (fun e => isTranslationCall e = true) (snd (handleTranslate st)) = []
  /\ filter (fun e => isStateWrite e = true) (snd (handleTranslate st)) = []
  /\ applyEffects (snd (handleTranslate st)) st = st
  /\ isTranslating (applyEffects (snd (handleTranslate st)) st) = isTranslating st
  /\ translatedContent (applyEffects (snd (handleTranslate st)) st)
     = translatedContent st
  /\ translationError (applyEffects (snd (handleTranslate st)) st)
     = translationError st
  /\ translatedLanguage (applyEffects (snd (handleTranslate st)) st)
     = translatedLanguage st.
Proof. unfold handleTranslate. rewrite Hempty. done. Qed.

Lemma translate_empty_content_noop_witness :
  content initialState = js ""
  /\ handleTranslate initialState = (None, []).
Proof.
  split; [reflexivity|].
  exact (proj1 (translate_empty_content_noop initialState eq_refl)).
Defined.

(** With content on the page the service is called, once. *)
Lemma translate_content_calls (st : AppState) :
  content st <> js "" ->
  filter (fun e => isTranslationCall e = true) (snd (handleTranslate st))
  = [CallStreamTranslation (content st) (targetLanguage st)].
Proof.
  intros Hc. apply truthy_true in Hc. unfold handleTranslate. by rewrite Hc.
Qed.

Lemma translateRun_stopped (op : TranslateOp) (evs : list TranslateEvent) :
  translating op = false -> translateRun op evs = (op, []).
Proof.
  intros Hop. induction evs as [|ev evs IH]; [done|].
  simpl. unfold translateStep. rewrite Hop. simpl. by rewrite IH.
Qed.

Lemma translateStep_failure (op : TranslateOp) (ev : TranslateEvent) (e : Thrown) :
  translating op = true -> translationFailure ev = Some e ->
  translateStep op ev
  = (stopTranslating op, translateCatch e ++ translateFinally op false).
Proof.
  intros Hrunning Hfail. unfold translateStep. rewrite Hrunning. simpl.
  destruct ev as [chunk| |e0]; simpl in *.
  - destruct (startsWith chunk (js "Error:")); [by injection Hfail as <-|done].
  - done.
  - by injection Hfail as <-.
Qed.

(** C8, as stated, fails for a message that holds "Error: " elsewhere than
    at its start: [replace] removes the first occurrence wherever it is.
    What holds (amended) — when a translation fails, by a chunk that begins
    with "Error:" or by a rejection, the error shown is the raw message with
    its first occurrence of "Error: " removed (the leading prefix, when the
    message begins with it; nothing, when it has none), the translated
    content is set to null, [isTranslating] is cleared, the language label is
    not written, and the operation does nothing more. *)
Theorem translation_failure_cleans_message
    (op : TranslateOp) (ev : TranslateEvent) (e : Thrown) (st : AppState)
    (Hrunning : translating op = true)
    (Hfail : translationFailure ev = Some e) :
  let raw := errorMessageOf e in
  let shown := replace_ raw (js "Error: ") (js "") in
  let op' := fst (translateStep op ev) in
  let es := snd (translateStep op ev) in
  es = [ SetTranslationError (Some shown); SetTranslatedContent None;
         SetIsTranslating false ]
  /\ translationError (applyEffects es st) = Some shown
  /\ translatedContent (applyEffects es st) = None
  /\ isTranslating (applyEffects es st) = false
  /\ translatedLanguage (applyEffects es st) = translatedLanguage st
  /\ (startsWith raw (js "Error: ") = true ->
      shown = drop (length (js "Error: ")) raw
      /\ shown = stripLeadingErrorPrefix raw)
  /\ (indexOf raw (js "Error: ") = None -> shown = raw)
  /\ (forall i, indexOf raw (js "Error: ") = Some i ->
      shown = take i raw ++ drop (i + length (js "Error: ")) raw)
  /\ translating op' = false
  /\ forall evs, snd (translateRun op' evs) = [].
Proof.
  cbv zeta. rewrite (translateStep_failure op ev e Hrunning Hfail).
  unfold translateCatch, translateFinally. simpl.
  repeat (split; [by destruct st|]).
  split; [|split; [|split; [|split]]].
  - intros Hlead. unfold stripLeadingErrorPrefix. rewrite Hlead.
    by rewrite replace_leading.
  - intros Hnone. unfold replace_. by rewrite Hnone.
  - intros i Hi. unfold replace_. by rewrite Hi.
  - done.
  - intros evs. by rewrite translateRun_stopped.
Qed.

Lemma translation_failure_cleans_message_witness :
  let st := applyEffects [SetContent (js "Hypertext is text.")] initialState in
  let op := {| sourceText := js "Hypertext is text."; language := js "Spanish";
               accumulatedTranslation := js "El hiper"; translating := true |} in
  let es := snd (translateStep op (TranslationChunk (js "Error: Quota exceeded"))) in
  fst (handleTranslate st)
  = Some {| sourceText := js "Hypertext is text."; language := js "Spanish";
            accumulatedTranslation := js ""; translating := true |}
  /\ translationError (applyEffects es st) = Some (js "Quota exceeded")
  /\ translatedContent (applyEffects es st) = None
  /\ translatedLanguage (applyEffects es st) = None.
Proof.
  cbv zeta.
  pose proof (translation_failure_cleans_message
    {| sourceText := js "Hypertext is text."; language := js "Spanish";
       accumulatedTranslation := js "El hiper"; translating := true |}
    (TranslationChunk (js "Error: Quota exceeded"))
    (ErrorObject (js "Error: Quota exceeded"))
    (applyEffects [SetContent (js "Hypertext is text.")] initialState)
    eq_refl eq_refl) as Hthm.
  cbv zeta in Hthm. destruct Hthm as (_ & Herr & Hcont & _ & Hlang & _).
  split; [reflexivity|]. split; [exact Herr|]. split; [exact Hcont|exact Hlang].
Defined.

(** C8, counterexample — a rejection with the message "Network Error: down"
    has no leading "Error: " to strip, yet "Network down" is shown; and of
    the chunk "Error:429 Error: quota", which has none either,
    "Error:429 quota". *)
Lemma translation_error_inner_prefix_removed :
  let op := {| sourceText := js "Hypertext is text."; language := js "Spanish";
               accumulatedTranslation := js ""; translating := true |} in
  let thrown := js "Network Error: down" in
  let chunk := js "Error:429 Error: quota" in
  let shown1 := translationError
    (applyEffects (snd (translateStep op (TranslationThrow (ErrorObject thrown))))
       initialState) in
  let shown2 := translationError
    (applyEffects (snd (translateStep op (TranslationChunk chunk))) initialState) in
  stripLeadingErrorPrefix thrown = thrown
  /\ shown1 = Some (js "Network down")
  /\ shown1 <> Some (stripLeadingErrorPrefix thrown)
  /\ startsWith chunk (js "Error:") = true
  /\ stripLeadingErrorPrefix chunk = chunk
  /\ shown2 = Some (js "Error:429 quota")
  /\ shown2 <> Some (stripLeadingErrorPrefix chunk).
Proof. vm_compute. repeat split; discriminate. Qed.

(** * Further properties of the components *)

(** ** What is rendered *)

(** X1 — in every state exactly one of the four main panels is rendered:
    the error box when the error is a non-empty string, else the content when
    there is some, else the loading skeleton while loading, else the
    "Content could not be generated." notice. An error that is the empty
    string counts as no error. *)
Theorem exactly_one_main_panel (st : AppState) :
  (showsErrorBox st, showsLoadingSkeleton st, showsContent st,
   showsNotGenerated st)
  = if truthyOrNull (error st) then (true, false, false, false)
    else if truthy (content st) then (false, false, true, false)
    else if isLoading st then (false, true, false, false)
    else (false, false, false, true).
Proof.
  unfold showsErrorBox, showsLoadingSkeleton, showsContent, showsNotGenerated.
  destruct (truthyOrNull (error st)), (content st) as [|c cs], (isLoading st);
    reflexivity.
Qed.

(** ** Fallback art, for every topic *)

Lemma displayableTopic_take (topic : jsstring) :
  take 17 (displayableTopic topic) = take 17 topic.
Proof.
  destruct (Nat.le_gt_cases (length topic) 20) as [Hle|Hgt].
  - by rewrite displayableTopic_short.
  - destruct (displayableTopic_long topic Hgt) as [-> H17].
    by rewrite take_app_length'.
Qed.

(** X16 — for every topic, newline or not, the fallback art is the top
    border, the middle row and the bottom border joined by two newlines; the
    three rows have the same length, the label's plus four and at most 24, so
    the art is never longer than 74 code units; and the label always begins
    with the first 17 characters of the topic. *)
Theorem fallback_art_bounded (topic : jsstring) :
  let label := displayableTopic topic in
  art (createFallbackArt topic)
  = topBorder topic ++ [LF] ++ middle topic ++ [LF] ++ bottomBorder topic
  /\ length (topBorder topic) = length label + 4
  /\ length (middle topic) = length label + 4
  /\ length (bottomBorder topic) = length label + 4
  /\ length label + 4 <= 24
  /\ length (art (createFallbackArt topic)) = 3 * length label + 14
  /\ length (art (createFallbackArt topic)) <= 74
  /\ take 17 label = take 17 topic.
Proof.
  cbv zeta. destruct (border_lengths topic) as (Ht & Hm & Hb).
  pose proof (displayableTopic_length topic) as Hlabel.
  assert (Hart : length (art (createFallbackArt topic))
                 = 3 * length (displayableTopic topic) + 14).
  { change (art (createFallbackArt topic))
      with (topBorder topic ++ [LF] ++ middle topic ++ [LF] ++ bottomBorder topic).
    rewrite !length_app, Ht, Hm, Hb. simpl. lia. }
  repeat split; try done; try lia. apply displayableTopic_take.
Qed.

(** ** More on the topic effect *)

Arguments historyUpdater : simpl never.

Section RunProperties.
Context `{StringCase} `{NumberMinus}.

Ltac run_cases op :=
  destruct op as [? ? [] ? ? [] []];
  unfold fetchStep, fetchCatch, fetchFinally; simpl in *;
  repeat match goal with
    | |- context [if startsWith ?c ?p then _ else _] =>
        destruct (startsWith c p) eqn:?; simpl
    | |- context [if truthy ?s then _ else _] =>
        destruct (truthy s) eqn:?; simpl
    end.

Lemma applyEffects_app (es1 es2 : list Effect) (st : AppState) :
  applyEffects (es1 ++ es2) st = applyEffects es2 (applyEffects es1 st).
Proof. apply fold_left_app. Qed.

Lemma accumulate_accumulate (op : FetchOp) (a b : jsstring) :
  accumulate (accumulate op a) b = accumulate op (a ++ b).
Proof. unfold accumulate. simpl. by rewrite app_assoc. Qed.

Lemma accumulate_nil (op : FetchOp) : accumulate op [] = op.
Proof. destruct op. unfold accumulate. simpl. by rewrite app_nil_r. Qed.

(** The loop over chunks none of which is an error: what is accumulated, and
    what is written. *)
Lemma fetchRun_chunks_trace (op : FetchOp) (chunks : list (Q * jsstring)) :
  streaming op = true -> isCancelled op = false ->
  Forall (fun c => startsWith c.2 (js "Error:") = false) chunks ->
  fetchRun op (prod_map id StreamChunk <$> chunks)
  = (accumulate op (concat chunks.*2),
     (fun k => SetContent (accumulatedContent op ++ concat (take (S k) chunks.*2)))
       <$> seq 0 (length chunks)).
Proof.
  intros Hs Hc Hchunks. revert op Hs Hc.
  induction Hchunks as [|[t c] chunks Hhd _ IH]; intros op Hs Hc.
  - simpl. by rewrite accumulate_nil.
  - simpl in Hhd. cbn [fmap list_fmap prod_map fst snd fetchRun].
    unfold fetchStep at 1. rewrite Hs, Hc, Hhd. cbn [negb accumulate isCancelled].
    rewrite Hc. rewrite (IH (accumulate op c) Hs Hc).
    rewrite accumulate_accumulate. f_equal.
    cbn [length seq fmap list_fmap app take concat accumulatedContent accumulate].
    rewrite app_nil_r. f_equal.
    rewrite <- fmap_S_seq, <- list_fmap_compose.
    apply list_fmap_ext. intros i k _. simpl. by rewrite app_assoc.
Qed.

Lemma applyEffect_content_twice (st : AppState) (a b : jsstring) :
  applyEffect (applyEffect st (SetContent a)) (SetContent b)
  = applyEffect st (SetContent b).
Proof. by destruct st. Qed.

Lemma applyEffects_contents (vs : list jsstring) (st : AppState) :
  applyEffects (SetContent <$> vs) st
  = match last vs with
    | Some v => applyEffect st (SetContent v)
    | None => st
    end.
Proof.
  revert st. induction vs as [|v vs IH]; intros st; [done|].
  change (applyEffects (SetContent <$> v :: vs) st)
    with (applyEffects (SetContent <$> vs) (applyEffect st (SetContent v))).
  rewrite IH. destruct vs as [|w vs]; [done|].
  rewrite last_cons_cons.
  destruct (last (w :: vs)) eqn:Hl; [apply applyEffect_content_twice|].
  by apply last_None in Hl.
Qed.

(** The state after the chunks of such a loop. *)
Lemma fetchRun_chunks_state (op : FetchOp) (chunks : list (Q * jsstring))
    (st : AppState) :
  streaming op = true -> isCancelled op = false ->
  Forall (fun c => startsWith c.2 (js "Error:") = false) chunks ->
  applyEffects (snd (fetchRun op (prod_map id StreamChunk <$> chunks))) st
  = match chunks with
    | [] => st
    | _ :: _ =>
        applyEffect st (SetContent (accumulatedContent op ++ concat chunks.*2))
    end.
Proof.
  intros Hs Hc Hchunks. rewrite (fetchRun_chunks_trace op chunks Hs Hc Hchunks).
  cbn [snd].
  replace ((fun k => SetContent
              (accumulatedContent op ++ concat (take (S k) chunks.*2)))
             <$> seq 0 (length chunks))
    with (SetContent
            <$> ((fun k => accumulatedContent op ++ concat (take (S k) chunks.*2))
                   <$> seq 0 (length chunks)))
    by (by rewrite <- list_fmap_compose).
  rewrite applyEffects_contents, fmap_last.
  destruct chunks as [|c chunks]; [done|].
  rewrite last_lookup, length_seq. cbn [length pred].
  rewrite lookup_seq_lt by lia. cbn [fmap option_fmap option_map].
  rewrite Nat.add_0_l, take_ge; [done|]. by rewrite length_fmap.
Qed.

(** X2 — while a run that has not been cancelled receives chunks none of
    which begins with "Error:", each chunk makes it display the
    concatenation of all chunks received so far, in order: the k-th write is
    [setContent] of what was accumulated before followed by the first k
    chunks; nothing else is written, the loop goes on, and after at least one
    chunk the content on the page is everything received. *)
Theorem stream_chunks_accumulate
    (op : FetchOp) (chunks : list (Q * jsstring)) (st : AppState)
    (Hloop : streaming op = true)
    (Hlive : isCancelled op = false)
    (Hchunks : Forall (fun c => startsWith c.2 (js "Error:") = false) chunks) :
  let run := fetchRun op (prod_map id StreamChunk <$> chunks) in
  let st' := applyEffects (snd run) st in
  snd run
  = (fun k => SetContent (accumulatedContent op ++ concat (take (S k) chunks.*2)))
      <$> seq 0 (length chunks)
  /\ accumulatedContent (fst run) = accumulatedContent op ++ concat chunks.*2
  /\ streaming (fst run) = true /\ isCancelled (fst run) = false
  /\ success (fst run) = success op
  /\ (chunks <> [] -> content st' = accumulatedContent op ++ concat chunks.*2)
  /\ error st' = error st /\ isLoading st' = isLoading st
  /\ asciiArt st' = asciiArt st /\ history st' = history st.
Proof.
  cbv zeta. rewrite (fetchRun_chunks_state op chunks st Hloop Hlive Hchunks).
  rewrite (fetchRun_chunks_trace op chunks Hloop Hlive Hchunks). cbn [fst snd].
  split; [done|]. split; [done|]. split; [done|]. split; [done|].
  split; [done|].
  destruct chunks as [|c chunks]; [done|].
  repeat split; by destruct st.
Qed.

(** The loop over such chunks and then the end of the stream. *)
Lemma fetchRun_stream_end (op : FetchOp) (chunks : list (Q * jsstring)) (now : Q) :
  streaming op = true -> isCancelled op = false ->
  Forall (fun c => startsWith c.2 (js "Error:") = false) chunks ->
  snd (fetchRun op ((prod_map id StreamChunk <$> chunks) ++ [(now, StreamEnd)]))
  = snd (fetchRun op (prod_map id StreamChunk <$> chunks))
      ++ fetchFinally op
           (truthy (accumulatedContent op ++ concat chunks.*2)) now.
Proof.
  intros Hs Hc Hchunks. rewrite fetchRun_app.
  rewrite (fetchRun_chunks_trace op chunks Hs Hc Hchunks).
  cbn [fetchRun fetchStep fst snd]. unfold accumulate at 1.
  cbn [streaming negb]. rewrite Hs. cbn [negb snd].
  by rewrite app_nil_r.
Qed.

(** X3 — a run for a non-empty topic whose stream delivers chunks none of
    which is an error and then ends, nothing else happening meanwhile, leaves
    the page with the concatenation of the chunks as content, no error,
    loading over, and as generation time the Number [endTime - startTime]
    that the host computes from the two timestamps. With some content the
    content panel shows and the history goes through the updater of the
    topic; with none (an empty stream, or empty chunks only) the history is
    untouched and the "Content could not be generated." notice shows. *)
Theorem stream_end_outcome
    (st : AppState) (topic : jsstring) (start now : Q)
    (chunks : list (Q * jsstring))
    (Htopic : topic <> [])
    (Hchunks : Forall (fun c => startsWith c.2 (js "Error:") = false) chunks) :
  let r := {| runTopic := topic; runStart := start;
              runEvents := (prod_map id StreamChunk <$> chunks)
                             ++ [(now, StreamEnd)] |} in
  let st' := applyEffects (runEffects r) st in
  let text := concat chunks.*2 in
  content st' = text /\ error st' = None /\ isLoading st' = false
  /\ generationTime st' = Some (numberMinus now start)
  /\ history st'
     = (if truthy text then historyUpdater topic (history st) else history st)
  /\ showsContent st' = truthy text
  /\ showsNotGenerated st' = negb (truthy text)
  /\ showsLoadingSkeleton st' = false /\ showsErrorBox st' = false
  /\ currentTopic st' = currentTopic st.
Proof.
  cbv zeta.
  destruct (run_unfold {| runTopic := topic; runStart := start;
                          runEvents := (prod_map id StreamChunk <$> chunks)
                                         ++ [(now, StreamEnd)] |})
    as [(Hnil & _)|(_ & -> & _)]; [done|].
  cbn [runTopic runStart runEvents].
  rewrite (fetchRun_stream_end (fst (fetchContentAndArt topic start))
             chunks now eq_refl eq_refl Hchunks).
  rewrite !applyEffects_app.
  rewrite (fetchRun_chunks_state (fst (fetchContentAndArt topic start))
             chunks _ eq_refl eq_refl Hchunks).
  unfold fetchFinally, fetchContentAndArt.
  cbn [fst snd isCancelled startTime opTopic accumulatedContent].
  change (js "") with (@nil N). cbn [app].
  unfold showsContent, showsNotGenerated, showsLoadingSkeleton, showsErrorBox.
  destruct st. destruct chunks as [|c chunks].
  - cbn. repeat split; reflexivity.
  - destruct (concat ((c :: chunks).*2)) as [|x text];
      cbn; repeat split; reflexivity.
Qed.

(** X4 — when the stream of a run that has not been cancelled throws, the
    content is cleared, loading is over, the history is left alone and the
    error becomes the message of the [Error] thrown, or
    "An unknown error occurred" for any other value. A non-empty message
    shows in the error box; an empty one (an [Error] without message) shows
    no error box: the page says "Content could not be generated." *)
Theorem stream_throw_outcome
    (now : Q) (op : FetchOp) (e : Thrown) (st : AppState)
    (Hloop : streaming op = true)
    (Hlive : isCancelled op = false) :
  let message := errorMessageOf e in
  let st' := applyEffects (snd (fetchStep now op (StreamThrow e))) st in
  error st' = Some message /\ content st' = js ""
  /\ isLoading st' = false /\ history st' = history st
  /\ (e = OtherValue -> message = js "An unknown error occurred")
  /\ showsErrorBox st' = truthy message
  /\ showsNotGenerated st' = negb (truthy message)
  /\ showsContent st' = false /\ showsLoadingSkeleton st' = false
  /\ streaming (fst (fetchStep now op (StreamThrow e))) = false
  /\ success (fst (fetchStep now op (StreamThrow e))) = false.
Proof.
  cbv zeta. unfold fetchStep, fetchCatch, fetchFinally.
  rewrite Hloop, Hlive. cbn [negb leaveLoop isCancelled app fst snd].
  unfold showsErrorBox, showsNotGenerated, showsContent, showsLoadingSkeleton.
  destruct st. simpl. repeat split; try done; try by intros ->.
  all: by destruct (truthy (errorMessageOf e)).
Qed.

(** Nothing a run does after its start sets the topic or touches the
    translation state, the target language or the theme. *)
Lemma fetchStep_frame (now : Q) (op : FetchOp) (ev : FetchEvent) (st : AppState) :
  let st' := applyEffects (snd (fetchStep now op ev)) st in
  currentTopic st' = currentTopic st
  /\ targetLanguage st' = targetLanguage st
  /\ isTranslating st' = isTranslating st
  /\ translationError st' = translationError st
  /\ translatedContent st' = translatedContent st
  /\ translatedLanguage st' = translatedLanguage st
  /\ theme st' = theme st.
Proof. cbv zeta. destruct ev; run_cases op; by destruct st. Qed.

(** X5 — the two operations of a run write disjoint parts of the state: a
    settled art promise changes only the art, and the stream (its chunks,
    its end, an error) never changes the art; neither sets the topic, the
    target language, the theme or any translation state. *)
Theorem run_operations_write_apart
    (now : Q) (op : FetchOp) (ev : FetchEvent) (st : AppState) :
  let st' := applyEffects (snd (fetchStep now op ev)) st in
  (currentTopic st' = currentTopic st
   /\ targetLanguage st' = targetLanguage st
   /\ isTranslating st' = isTranslating st
   /\ translationError st' = translationError st
   /\ translatedContent st' = translatedContent st
   /\ translatedLanguage st' = translatedLanguage st
   /\ theme st' = theme st)
  /\ match ev with
     | ArtResolved _ | ArtRejected _ =>
         content st' = content st /\ error st' = error st
         /\ isLoading st' = isLoading st
         /\ generationTime st' = generationTime st
         /\ history st' = history st
     | StreamChunk _ | StreamEnd | StreamThrow _ | Cleanup =>
         asciiArt st' = asciiArt st
     end.
Proof.
  cbv zeta. split; [apply fetchStep_frame|].
  destruct ev; run_cases op; by destruct st.
Qed.

End RunProperties.

(** ** The component as a whole *)

Section Component.
Context `{StringCase} `{NumberMinus}.

Lemma commit_same_topic (now : Q) (es : list Effect) (app : App) :
  currentTopic (applyEffects es (state app)) = currentTopic (state app) ->
  commit now es app
  = ({| state := applyEffects es (state app); live := live app;
        stale := stale app |}, es).
Proof. intros Hsame. unfold commit. by rewrite decide_True. Qed.

Lemma commit_new_topic (now : Q) (es : list Effect) (app : App) :
  currentTopic (applyEffects es (state app)) <> currentTopic (state app) ->
  commit now es app
  = ({| state := applyEffects
                   (snd (topicEffect (currentTopic (applyEffects es (state app))) now))
                   (applyEffects es (state app));
        live := fst (topicEffect (currentTopic (applyEffects es (state app))) now);
        stale := (cancel <$> option_list (live app)) ++ stale app |},
     es ++ snd (topicEffect (currentTopic (applyEffects es (state app))) now)).
Proof.
  intros Hnew. unfold commit. rewrite decide_False by done.
  destruct (topicEffect _ now) as [op' es']. by destruct (live app).
Qed.

Lemma commit_nothing (now : Q) (app : App) : commit now [] app = (app, []).
Proof. rewrite commit_same_topic by done. by destruct app. Qed.

Lemma topicEffect_keeps_topic (topic : jsstring) (now : Q) (st : AppState) :
  currentTopic (applyEffects (snd (topicEffect topic now)) st) = currentTopic st.
Proof.
  unfold topicEffect. destruct (truthy topic); simpl; by destruct st.
Qed.

Lemma topicEffect_run (topic : jsstring) (now : Q) :
  fst (topicEffect topic now)
  = if truthy topic then Some (fst (fetchContentAndArt topic now)) else None.
Proof. unfold topicEffect. by destruct (truthy topic). Qed.

(** X6 — in every reachable state of the component the live run, if there
    is one, is the run of the topic on the page and is not cancelled; there
    is no live run exactly when the topic is the empty string; and every
    other run started so far is cancelled. So at most one run, the one of
    the current topic, can write to the page. *)
Theorem live_run_is_for_current_topic (app : App) (Happ : reachable app) :
  (forall op, live app = Some op ->
     opTopic op = currentTopic (state app) /\ isCancelled op = false)
  /\ (live app = None <-> currentTopic (state app) = [])
  /\ Forall (fun op => isCancelled op = true) (stale app).
Proof.
  destruct (reachable_flags app Happ) as [Hflag Hstale].
  split; [|split; [|done]].
  - intros op Hop. split; [|by apply Hflag]. revert op Hop.
    induction Happ as [now|now es app Happ IH|now ev app Happ IH Hev
                      |now i ev app Happ IH Hev]; intros op Hop.
    + unfold mount in Hop. simpl in Hop. by injection Hop as <-.
    + destruct (reachable_flags app Happ) as [Hflag' Hstale'].
      destruct (decide (currentTopic (applyEffects es (state app))
                        = currentTopic (state app))) as [Hsame|Hnew].
      * rewrite commit_same_topic in * by done. simpl in *.
        rewrite Hsame. by apply IH.
      * rewrite commit_new_topic in * by done. simpl in *.
        rewrite topicEffect_keeps_topic. rewrite topicEffect_run in Hop.
        destruct (truthy _); [|done]. by injection Hop as <-.
    + destruct (reachable_flags app Happ) as [Hflag' Hstale'].
      unfold resumeLive in *. destruct (live app) as [op0|] eqn:Hlive0.
      * pose proof (fetchStep_opTopic now op0 ev) as Htopic.
        destruct (fetchStep_frame now op0 ev (state app)) as [Hkeep _].
        destruct (fetchStep now op0 ev) as [op' es]. simpl in *.
        injection Hop as <-. rewrite Htopic, Hkeep. by apply IH.
      * simpl in *. by rewrite Hlive0 in Hop.
    + destruct (reachable_flags app Happ) as [Hflag' Hstale'].
      unfold resumeStale in *. destruct (stale app !! i) as [op0|] eqn:Hi.
      * destruct (fetchStep_frame now op0 ev (state app)) as [Hkeep _].
        destruct (fetchStep now op0 ev) as [op' es]. simpl in *.
        rewrite Hkeep. by apply IH.
      * simpl in *. by apply IH.
  - clear Hflag Hstale.
    induction Happ as [now|now es app Happ IH|now ev app Happ IH Hev
                      |now i ev app Happ IH Hev].
    + by vm_compute.
    + destruct (decide (currentTopic (applyEffects es (state app))
                        = currentTopic (state app))) as [Hsame|Hnew].
      * rewrite commit_same_topic by done. simpl. by rewrite Hsame.
      * rewrite commit_new_topic by done. simpl.
        rewrite topicEffect_keeps_topic, topicEffect_run.
        destruct (currentTopic (applyEffects es (state app))); by simpl.
    + unfold resumeLive. destruct (live app) as [op0|] eqn:Hlive0.
      * destruct (fetchStep_frame now op0 ev (state app)) as [Hkeep _].
        destruct (fetchStep now op0 ev) as [op' es]. simpl in *.
        rewrite Hkeep. rewrite <- IH. by split.
      * simpl. by rewrite Hlive0.
    + unfold resumeStale. destruct (stale app !! i) as [op0|] eqn:Hi.
      * destruct (fetchStep_frame now op0 ev (state app)) as [Hkeep _].
        destruct (fetchStep now op0 ev) as [op' es]. simpl in *.
        by rewrite Hkeep.
      * done.
Qed.

(** A selection the handlers accept. *)
Lemma clickWord_accepted (now : Q) (T : jsstring) (app : App) :
  trim T <> [] ->
  toLowerCase (trim T) <> toLowerCase (currentTopic (state app)) ->
  clickWord now T app
  = ({| state := applyEffects (snd (fetchContentAndArt (trim T) now))
                   (applyEffect (state app) (SetCurrentTopic (trim T)));
        live := Some (fst (fetchContentAndArt (trim T) now));
        stale := (cancel <$> option_list (live app)) ++ stale app |},
     [SetCurrentTopic (trim T)] ++ snd (fetchContentAndArt (trim T) now)).
Proof.
  intros Hnonempty Hnew. unfold clickWord, handleWordClick.
  apply truthy_true in Hnonempty as Htruthy.
  rewrite Htruthy, bool_decide_eq_false_2 by done. cbn [andb negb].
  assert (Htopic : currentTopic (applyEffects [SetCurrentTopic (trim T)] (state app))
                   = trim T) by by destruct (state app).
  rewrite commit_new_topic; rewrite Htopic.
  - unfold topicEffect. by rewrite Htruthy.
  - intros Heq. apply Hnew. by rewrite Heq.
Qed.

(** A selection the handlers refuse. *)
Lemma clickWord_refused (now : Q) (T : jsstring) (app : App) :
  trim T = [] \/ toLowerCase (trim T) = toLowerCase (currentTopic (state app)) ->
  clickWord now T app = (app, []).
Proof.
  intros Hrefused. unfold clickWord, handleWordClick.
  replace (truthy (trim T)
           && negb (bool_decide (toLowerCase (trim T)
                                 = toLowerCase (currentTopic (state app)))))
    with false; [apply commit_nothing|].
  destruct Hrefused as [->|Heq]; [done|].
  rewrite bool_decide_eq_true_2 by done. by rewrite andb_false_r.
Qed.

(** X7 — a word click changes nothing at all (state, runs, trace) exactly
    when the trimmed word is empty or equals the current topic up to case;
    otherwise the trimmed word becomes the topic. Clicking the same word a
    second time never does anything, and a search submit while a load is in
    progress does nothing whatever the query. *)
Theorem selection_noops (now now' : Q) (T : jsstring) (app : App) :
  let refused :=
    trim T = []
    \/ toLowerCase (trim T) = toLowerCase (currentTopic (state app)) in
  (refused -> clickWord now T app = (app, []))
  /\ (~ refused ->
      snd (clickWord now T app) <> []
      /\ currentTopic (state (fst (clickWord now T app))) = trim T)
  /\ clickWord now' T (fst (clickWord now T app))
     = (fst (clickWord now T app), [])
  /\ (isLoading (state app) = true -> submitSearch now T app = (app, [])).
Proof.
  cbv zeta. split; [apply clickWord_refused|]. split; [|split].
  - intros Hnot.
    assert (Hnonempty : trim T <> []) by (intros Heq; apply Hnot; by left).
    assert (Hnew : toLowerCase (trim T) <> toLowerCase (currentTopic (state app)))
      by (intros Heq; apply Hnot; by right).
    rewrite (clickWord_accepted now T app Hnonempty Hnew). cbn [fst snd state].
    split; [done|]. by destruct (state app).
  - destruct (decide (trim T = [])) as [Hempty|Hnonempty].
    { rewrite (clickWord_refused now T app) by by left.
      apply clickWord_refused. by left. }
    destruct (decide (toLowerCase (trim T)
                      = toLowerCase (currentTopic (state app)))) as [Hsame|Hnew].
    { rewrite (clickWord_refused now T app) by by right.
      apply clickWord_refused. by right. }
    rewrite (clickWord_accepted now T app Hnonempty Hnew). cbn [fst].
    apply clickWord_refused. right. cbn [state]. by destruct (state app).
  - intros Hload. unfold submitSearch, handleSubmit. rewrite Hload.
    rewrite andb_false_r. apply commit_nothing.
Qed.

End Component.

(** ** The Random button *)

Section RandomPress.
Context `{StringCase} `{NumberMinus}.

(** The setter calls of [handleRandom]: the four resets, the call of the
    service, the console output of a failure, and one [setCurrentTopic]. *)
Lemma handleRandom_effects (st : AppState) (outcome : jsstring + Thrown) (g : Rng) :
  exists logged,
    Forall (fun e => match e with ConsoleError _ _ => True | _ => False end) logged
    /\ fst (handleRandom st outcome g)
       = [ SetIsLoading true; SetError None; SetContent (js "");
           SetAsciiArt None; CallGetRandomWord ]
           ++ logged ++ [SetCurrentTopic (randomTopic st outcome g)].
Proof.
  unfold handleRandom, handleRandomResume, handleRandomStart, randomTopic,
    firstDraw.
  destruct outcome as [randomWord|e].
  - exists []. split; [constructor|]. cbn [fst snd].
    destruct (bool_decide _); [|done]. by destruct (pickWord g).
  - exists [ConsoleError
              (Some (js "Failed to get random word from API, using fallback list."))
              e].
    split; [by repeat constructor|].
    destruct (pickWord g) as [word1 g1]. cbn [fst snd].
    destruct (bool_decide _); [|done]. by destruct (pickWord g1).
Qed.

Lemma applyEffects_console (logged : list Effect) (st : AppState) :
  Forall (fun e => match e with ConsoleError _ _ => True | _ => False end) logged ->
  applyEffects logged st = st.
Proof.
  intros Hlogged. revert st. unfold applyEffects.
  induction Hlogged as [|e logged He _ IH]; intros st; [done|].
  simpl. rewrite <- (IH st) at 2. f_equal. by destruct e, st.
Qed.

(** The state once the setter calls of [handleRandom] are applied. *)
Lemma handleRandom_state (st : AppState) (outcome : jsstring + Thrown) (g : Rng) :
  applyEffects (fst (handleRandom st outcome g)) st
  = applyEffects [ SetIsLoading true; SetError None; SetContent (js "");
                   SetAsciiArt None;
                   SetCurrentTopic (randomTopic st outcome g) ] st.
Proof.
  destruct (handleRandom_effects st outcome g) as (logged & Hlogged & ->).
  rewrite !applyEffects_app, (applyEffects_console logged) by done.
  by destruct st.
Qed.

(** A press of Random answered before anything else happens is the press,
    committed, followed by the answer, committed. *)
Lemma pressRandom_press_then_answer
    (now : Q) (outcome : jsstring + Thrown) (g : Rng) (app : App) :
  let pressed := commit now handleRandomStart app in
  let answered :=
    commit now (fst (handleRandomResume (currentTopic (state app)) outcome g))
           (fst pressed) in
  pressRandom now outcome g app = (fst answered, snd pressed ++ snd answered).
Proof.
  cbv zeta. unfold pressRandom, handleRandom.
  destruct (handleRandomResume (currentTopic (state app)) outcome g) as [es g'].
  cbn [fst].
  assert (Hstart : currentTopic (applyEffects handleRandomStart (state app))
                   = currentTopic (state app)) by by destruct (state app).
  rewrite (commit_same_topic now handleRandomStart app Hstart). cbn [fst snd].
  unfold commit. cbn [state live stale]. rewrite applyEffects_app, Hstart.
  case_decide; [done|].
  destruct (topicEffect _ now) as [op' es']. cbn [fst snd].
  by rewrite app_assoc.
Qed.

(** After the loop has been left, a run no longer clears the loading flag. *)
Lemma fetchStep_left_keeps_loading (now : Q) (op : FetchOp) (ev : FetchEvent)
    (st : AppState) :
  streaming op = false ->
  let st' := applyEffects (snd (fetchStep now op ev)) st in
  isLoading st' = isLoading st /\ content st' = content st
  /\ error st' = error st.
Proof.
  intros Hleft. cbv zeta.
  destruct ev; unfold fetchStep; rewrite ?Hleft; cbn [negb snd];
    try (by destruct st);
    destruct (artPending op), (isCancelled op); by destruct st.
Qed.

(** X8 — a press of Random, answered before anything else happens, always
    leaves the page loading, with empty content, no error and no art, on
    the topic [handleRandom] chose. When that topic is another one than the
    current, the live run is cancelled and, unless the topic is the empty
    string, a run for it is started. When it is the current topic itself
    (the re-roll is not compared with it), or the empty string, no run is
    started: no definition stream is requested, and a live run that has
    left its loop will never end the loading. *)
Theorem random_press_outcome
    (now : Q) (outcome : jsstring + Thrown) (g : Rng) (app : App) :
  let word := randomTopic (state app) outcome g in
  let app' := fst (pressRandom now outcome g app) in
  (isLoading (state app') = true /\ content (state app') = js ""
   /\ error (state app') = None /\ asciiArt (state app') = None
   /\ currentTopic (state app') = word
   /\ showsLoadingSkeleton (state app') = true)
  /\ (word <> currentTopic (state app) ->
      stale app' = (cancel <$> option_list (live app)) ++ stale app
      /\ live app'
         = if truthy word then Some (fst (fetchContentAndArt word now)) else None)
  /\ (word = currentTopic (state app) ->
      live app' = live app /\ stale app' = stale app
      /\ (forall t, CallStreamDefinition t ∉ snd (pressRandom now outcome g app))
      /\ forall op now' ev,
           live app = Some op -> streaming op = false ->
           isLoading (state (fst (resumeLive now' ev app'))) = true
           /\ showsLoadingSkeleton (state (fst (resumeLive now' ev app'))) = true).
Proof.
  cbv zeta. unfold pressRandom.
  pose proof (handleRandom_state (state app) outcome g) as Hstate.
  assert (Htopic : currentTopic (applyEffects (fst (handleRandom (state app) outcome g))
                                   (state app))
                   = randomTopic (state app) outcome g).
  { rewrite Hstate. by destruct (state app). }
  destruct (decide (randomTopic (state app) outcome g = currentTopic (state app)))
    as [Hsame|Hnew].
  - rewrite commit_same_topic by (by rewrite Htopic). cbn [fst snd state live stale].
    rewrite Hstate.
    split; [|split; [done|]].
    { unfold showsLoadingSkeleton. by destruct (state app). }
    intros _. split; [done|]. split; [done|]. split.
    + intros t Hin.
      destruct (handleRandom_effects (state app) outcome g) as (logged & Hlogged & Heq).
      rewrite Heq in Hin.
      rewrite !elem_of_app in Hin. destruct Hin as [Hin|[Hin|Hin]].
      * decompose_list_elem_of; discriminate.
      * rewrite Forall_forall in Hlogged. by apply Hlogged in Hin.
      * decompose_list_elem_of; discriminate.
    + intros op now' ev Hlive Hleft. unfold resumeLive. cbn [live].
      rewrite Hlive.
      destruct (fetchStep_left_keeps_loading now' op ev
        (applyEffects [ SetIsLoading true; SetError None; SetContent (js "");
                        SetAsciiArt None;
                        SetCurrentTopic (randomTopic (state app) outcome g) ]
           (state app)) Hleft) as (Hload & Hcontent & Herror).
      destruct (fetchStep now' op ev) as [op' es]. cbn [fst snd state] in *.
      unfold showsLoadingSkeleton. rewrite Hload, Hcontent, Herror.
      by destruct (state app).
  - rewrite commit_new_topic by (by rewrite Htopic).
    cbn [fst snd state live stale]. rewrite Htopic, Hstate, topicEffect_run.
    split; [|split; [done|done]].
    unfold topicEffect, showsLoadingSkeleton.
    destruct (truthy (randomTopic (state app) outcome g));
      by destruct (state app).
Qed.

End RandomPress.

(** ** More on the history *)

Section HistoryMore.
Context `{StringCase} `{NumberMinus}.

Lemma historyUpdater_elem (topic : jsstring) (prev : list jsstring) (t : jsstring) :
  t ∈ historyUpdater topic prev -> t = topic \/ t ∈ prev.
Proof.
  unfold historyUpdater. case_decide; [by right|].
  intros Hin.
  assert (Hin' : t ∈ prev ++ [topic]).
  { destruct (15 <? length (prev ++ [topic])); [|done].
    by apply (subseteq_drop (length (prev ++ [topic]) - 15)). }
  apply elem_of_app in Hin' as [Hin'|Hin']; [by right|].
  apply list_elem_of_singleton in Hin'. by left.
Qed.

(** A run leaves the history alone or, for a non-empty topic only, passes
    it through the updater of that topic. *)
Lemma run_history (r : TopicRun) (st : AppState) :
  history (applyEffects (runEffects r) st) = history st
  \/ (runTopic r <> []
      /\ history (applyEffects (runEffects r) st)
         = historyUpdater (runTopic r) (history st)).
Proof.
  rewrite history_applyEffects.
  destruct (run_unfold r) as [(_ & -> & _)|(Htopic & -> & _)]; [by left|].
  rewrite historyAfter_app, historyAfter_reset.
  destruct (fetchRun_history_any (fst (fetchContentAndArt (runTopic r) (runStart r)))
              (runEvents r) (history st)) as [->| ->]; [by left|by right].
Qed.

Lemma completed_run_history (r : TopicRun) (st : AppState) :
  completedSuccessfully r ->
  history (applyEffects (runEffects r) st)
  = historyUpdater (runTopic r) (history st).
Proof.
  intros [Hevs Hok].
  destruct (run_unfold r) as [(_ & _ & Hcl)|(_ & Hes & Hcl)];
    rewrite Hcl in Hok; [done|].
  injection Hok as Hok. rewrite Hes.
  assert (Hop0 : successMeansContent
                   (fst (fetchContentAndArt (runTopic r) (runStart r))))
    by done.
  rewrite history_applyEffects, historyAfter_app, historyAfter_reset.
  rewrite (fetchRun_history _ (runEvents r) _ Hop0 eq_refl Hevs).
  change (fst (fetchContentAndArt (runTopic r) (runStart r)))
    with {| opTopic := runTopic r; startTime := runStart r;
            isCancelled := false; accumulatedContent := js "";
            success := false; streaming := true; artPending := true |}.
  by rewrite Hok.
Qed.

Lemma afterRuns_snoc (runs : list TopicRun) (r : TopicRun) (st : AppState) :
  afterRuns (runs ++ [r]) st = applyEffects (runEffects r) (afterRuns runs st).
Proof. unfold afterRuns. by rewrite fold_left_app. Qed.

(** X9 — after any sequence of runs of the topic effect from the initial
    state, every entry of the history is the topic of one of these runs, and
    none is the empty string: nothing else ever gets into the history. *)
Theorem history_entries_are_run_topics (runs : list TopicRun) :
  Forall (fun t => t <> [] /\ exists r, r ∈ runs /\ runTopic r = t)
         (history (afterRuns runs initialState)).
Proof.
  induction runs as [|r runs IH] using rev_ind; [constructor|].
  rewrite afterRuns_snoc.
  assert (IH' : Forall (fun t => t <> []
                                 /\ exists r0, r0 ∈ runs ++ [r] /\ runTopic r0 = t)
                       (history (afterRuns runs initialState))).
  { eapply Forall_impl; [exact IH|].
    intros t (Ht & r0 & Hr0 & Heq). split; [done|].
    exists r0. split; [|done]. apply elem_of_app. by left. }
  destruct (run_history r (afterRuns runs initialState)) as [->|[Htopic ->]];
    [done|].
  apply Forall_forall. intros t Hin.
  apply historyUpdater_elem in Hin as [->|Hin].
  - split; [done|]. exists r. split; [|done].
    apply elem_of_app. right. by apply list_elem_of_singleton.
  - rewrite Forall_forall in IH'. by apply IH'.
Qed.

Lemma historyUpdater_last (topic : jsstring) (prev : list jsstring) :
  toLowerCase <$> last (historyUpdater topic prev) = Some (toLowerCase topic).
Proof.
  destruct (decide (toLowerCase <$> last prev = Some (toLowerCase topic)))
    as [Hsame|Hnew].
  - by rewrite historyUpdater_skip.
  - rewrite (historyUpdater_push topic prev Hnew).
    rewrite length_app. simpl.
    destruct (Nat.le_gt_cases (length prev + 1) 15) as [Hle|Hgt].
    + replace (length prev + 1 - 15) with 0 by lia.
      by rewrite drop_0, last_snoc.
    + rewrite drop_app_le by lia. by rewrite last_snoc.
Qed.

(** X10 — the History section is rendered exactly when the history has
    two entries or more, and shows all entries but the most recent one: one
    button less than there are entries, so never more than 14 buttons after
    any sequence of runs; and after a run that completed successfully the
    entry left out is the topic of that run up to case. *)
Theorem history_buttons_leave_out_latest :
  (forall st : AppState,
     (showsHistorySection st = true <-> 2 <= length (history st))
     /\ (showsHistorySection st = true ->
         length (historyButtons st) = length (history st) - 1
         /\ forall i topic,
              historyButtons st !! i = Some topic
              <-> history st !! i = Some topic /\ S i < length (history st)))
  /\ (forall runs : list TopicRun,
     let st := afterRuns runs initialState in
     length (historyButtons st) <= 14
     /\ (showsHistorySection st = true ->
         exists latest, history st = historyButtons st ++ [latest])
     /\ (showsHistorySection st = false -> historyButtons st = []))
  /\ (forall (st : AppState) (r : TopicRun),
        completedSuccessfully r ->
        let st' := applyEffects (runEffects r) st in
        exists latest,
          last (history st') = Some latest
          /\ toLowerCase latest = toLowerCase (runTopic r)
          /\ historyButtons st' = take (length (history st') - 1) (history st')).
Proof.
  split; [|split].
  - intros st. unfold historyButtons, showsHistorySection. split.
    + rewrite Nat.ltb_lt. lia.
    + intros Hshown. rewrite Hshown. apply Nat.ltb_lt in Hshown.
      split; [rewrite length_take; lia|].
      intros i topic. rewrite lookup_take_Some. split.
      * intros [Hi Hlt]. split; [done|lia].
      * intros [Hi Hlt]. split; [done|lia].
  - intros runs. cbv zeta.
    destruct (afterRuns_invariant runs initialState) as [Hlen _].
    { split; [simpl; lia|]. intros i a b Ha. simpl in Ha.
      by rewrite lookup_nil in Ha. }
    unfold historyButtons, showsHistorySection.
    set (h := history (afterRuns runs initialState)) in *.
    destruct (Nat.ltb_spec 1 (length h)) as [Hlt|Hge].
    + split; [rewrite length_take; lia|]. split; [|done]. intros _.
      destruct (last h) as [latest|] eqn:Hlast.
      * exists latest. apply last_Some in Hlast as [h' ->].
        rewrite length_app. simpl.
        replace (length h' + 1 - 1) with (length h') by lia.
        by rewrite take_app_length.
      * apply last_None in Hlast. rewrite Hlast in Hlt. simpl in Hlt. lia.
    + split; [simpl; lia|]. by split.
  - intros st r Hdone. cbv zeta.
    rewrite (completed_run_history r st Hdone).
    pose proof (historyUpdater_last (runTopic r) (history st)) as Hlast.
    destruct (last (historyUpdater (runTopic r) (history st)))
      as [latest|] eqn:Heq; [|done].
    exists latest. split; [done|]. split; [by injection Hlast|].
    unfold historyButtons, showsHistorySection.
    cbn [history].
    replace (history (applyEffects (runEffects r) st))
      with (historyUpdater (runTopic r) (history st))
      by (by rewrite (completed_run_history r st Hdone)).
    destruct (Nat.ltb_spec 1 (length (historyUpdater (runTopic r) (history st))))
      as [Hlt|Hge]; [done|].
    apply last_Some in Heq as [h' Heq']. rewrite Heq' in *.
    rewrite length_app in *. simpl in *.
    destruct h' as [|x h']; [done|]. simpl in Hge. lia.
Qed.

End HistoryMore.

(** ** More on translation *)

Lemma translateRun_app (op : TranslateOp) (evs1 evs2 : list TranslateEvent) :
  translateRun op (evs1 ++ evs2)
  = let '(op1, es1) := translateRun op evs1 in
    let '(op2, es2) := translateRun op1 evs2 in
    (op2, es1 ++ es2).
Proof.
  revert op. induction evs1 as [|ev evs1 IH]; intros op; simpl.
  - by destruct (translateRun op evs2).
  - destruct (translateStep op ev) as [op1 es1]. rewrite IH.
    destruct (translateRun op1 evs1) as [op2 es2].
    destruct (translateRun op2 evs2) as [op3 es3]. by rewrite app_assoc.
Qed.

Lemma applyEffect_translated_twice (st : AppState) (a b : option jsstring) :
  applyEffect (applyEffect st (SetTranslatedContent a)) (SetTranslatedContent b)
  = applyEffect st (SetTranslatedContent b).
Proof. by destruct st. Qed.

Lemma translateStep_chunk (op : TranslateOp) (c : jsstring) :
  translating op = true -> startsWith c (js "Error:") = false ->
  translateStep op (TranslationChunk c)
  = ({| sourceText := sourceText op; language := language op;
        accumulatedTranslation := accumulatedTranslation op ++ c;
        translating := true |},
     [SetTranslatedContent (Some (accumulatedTranslation op ++ c))]).
Proof. intros Hop Hc. unfold translateStep. by rewrite Hop, Hc. Qed.

(** The loop of a translation over chunks none of which is an error. *)
Lemma translateRun_chunks (op : TranslateOp) (chunks : list jsstring) :
  translating op = true ->
  Forall (fun c => startsWith c (js "Error:") = false) chunks ->
  fst (translateRun op (TranslationChunk <$> chunks))
  = {| sourceText := sourceText op; language := language op;
       accumulatedTranslation := accumulatedTranslation op ++ concat chunks;
       translating := true |}
  /\ forall st,
       applyEffects (snd (translateRun op (TranslationChunk <$> chunks))) st
       = match chunks with
         | [] => st
         | _ :: _ =>
             applyEffect st
               (SetTranslatedContent
                  (Some (accumulatedTranslation op ++ concat chunks)))
         end.
Proof.
  intros Hop Hchunks. revert op Hop.
  induction Hchunks as [|c chunks Hc _ IH]; intros op Hop.
  - split; [|done]. destruct op. simpl in *. subst. by rewrite app_nil_r.
  - cbn [fmap list_fmap translateRun].
    rewrite (translateStep_chunk op c Hop Hc).
    destruct (IH {| sourceText := sourceText op; language := language op;
                    accumulatedTranslation := accumulatedTranslation op ++ c;
                    translating := true |} eq_refl) as [Hfst Hsnd].
    destruct (translateRun _ (TranslationChunk <$> chunks)) as [op2 es2].
    cbn [fst snd] in *. split.
    + rewrite Hfst. cbn [sourceText language accumulatedTranslation concat].
      by rewrite app_assoc.
    + intros st.
      rewrite applyEffects_app, Hsnd. cbn [accumulatedTranslation concat].
      destruct chunks as [|c' chunks].
      * cbn [concat]. by rewrite app_nil_r.
      * change (applyEffects [?e] st) with (applyEffect st e).
        by rewrite applyEffect_translated_twice, app_assoc.
Qed.

(** X11 — the Translate button is enabled only with content on the page,
    no load in progress and no translation running, and a press of it then
    always starts a translation: the empty-content return of
    [handleTranslate] cannot be reached from the button. The translation is
    of the content and into the target language of that moment, and the
    service is called once. A press of the disabled button does nothing. *)
Theorem translate_button_starts (st : AppState)
    (Henabled : translateButtonDisabled (canTranslate st) (isTranslating st)
                = false) :
  content st <> [] /\ isLoading st = false /\ isTranslating st = false
  /\ pressTranslate st
     = (Some {| sourceText := content st; language := targetLanguage st;
                accumulatedTranslation := js ""; translating := true |},
        [ SetIsTranslating true; SetTranslatedContent (Some (js ""));
          SetTranslationError None;
          CallStreamTranslation (content st) (targetLanguage st) ])
  /\ (forall st0,
        translateButtonDisabled (canTranslate st0) (isTranslating st0) = true ->
        pressTranslate st0 = (None, [])).
Proof.
  unfold pressTranslate. rewrite Henabled.
  unfold translateButtonDisabled, canTranslate, handleTranslate in *.
  destruct (isLoading st), (isTranslating st), (content st) as [|c cs];
    try discriminate.
  repeat split; try done. by intros st0 ->.
Qed.

Lemma translate_button_starts_witness :
  let st := applyEffects [SetContent (js "Hypertext is text."); SetIsLoading false]
              initialState in
  translateButtonDisabled (canTranslate st) (isTranslating st) = false
  /\ fst (pressTranslate st)
     = Some {| sourceText := js "Hypertext is text."; language := js "Spanish";
               accumulatedTranslation := js ""; translating := true |}.
Proof.
  cbv zeta. split; [reflexivity|].
  pose proof (translate_button_starts
    (applyEffects [SetContent (js "Hypertext is text."); SetIsLoading false]
       initialState) eq_refl) as (_ & _ & _ & Hpress & _).
  rewrite Hpress. reflexivity.
Defined.

(** X12 — a translation whose stream delivers chunks none of which is an
    error and then ends shows the concatenation of the chunks, stops
    translating and has no error. With some text, the language label
    becomes the target language selected when Translate was pressed; with
    none, the label is left as it was and the translation section is not
    rendered at all. The content, the topic and the history are not
    touched. *)
Theorem translation_stream_outcome (st : AppState) (chunks : list jsstring)
    (Hcontent : content st <> [])
    (Hchunks : Forall (fun c => startsWith c (js "Error:") = false) chunks) :
  let evs := (TranslationChunk <$> chunks) ++ [TranslationEnd] in
  let st' := applyEffects (translationEffects st evs) st in
  let text := concat chunks in
  translatedContent st' = Some text
  /\ isTranslating st' = false /\ translationError st' = None
  /\ translatedLanguage st'
     = (if truthy text then Some (targetLanguage st) else translatedLanguage st)
  /\ showsTranslationSection st' = truthy text
  /\ showsTranslatedText st' = truthy text
  /\ content st' = content st /\ currentTopic st' = currentTopic st
  /\ history st' = history st /\ targetLanguage st' = targetLanguage st.
Proof.
  cbv zeta. unfold translationEffects, handleTranslate.
  apply truthy_true in Hcontent. rewrite Hcontent. cbn [negb].
  set (op0 := {| sourceText := content st; language := targetLanguage st;
                 accumulatedTranslation := js ""; translating := true |}).
  rewrite translateRun_app.
  destruct (translateRun_chunks op0 chunks eq_refl Hchunks) as [Hfst Hsnd].
  destruct (translateRun op0 (TranslationChunk <$> chunks)) as [op1 es1].
  cbn [fst snd] in Hfst, Hsnd. subst op1.
  cbn [translateRun translateStep translating negb accumulatedTranslation op0].
  unfold translateFinally. cbn [language snd].
  rewrite app_nil_r.
  change (?a :: ?b :: ?c :: ?d :: es1 ++ ?rest)
    with ([a; b; c; d] ++ es1 ++ rest).
  rewrite !applyEffects_app, Hsnd.
  change (js "") with (@nil N). cbn [app].
  unfold showsTranslationSection, showsTranslatedText.
  destruct st. destruct chunks as [|c chunks].
  - cbn. repeat split; reflexivity.
  - destruct (concat (c :: chunks)) as [|x text];
      cbn; repeat split; reflexivity.
Qed.

Lemma translation_stream_outcome_witness :
  let st := applyEffects [SetContent (js "Hypertext is text."); SetIsLoading false]
              initialState in
  let evs := [ TranslationChunk (js "El hipertexto "); TranslationChunk (js "es texto.");
               TranslationEnd ] in
  content st <> []
  /\ translatedContent (applyEffects (translationEffects st evs) st)
     = Some (js "El hipertexto es texto.")
  /\ translatedLanguage (applyEffects (translationEffects st evs) st)
     = Some (js "Spanish").
Proof.
  cbv zeta. split; [discriminate|].
  pose proof (translation_stream_outcome
    (applyEffects [SetContent (js "Hypertext is text."); SetIsLoading false]
       initialState)
    [js "El hipertexto "; js "es texto."]
    ltac:(discriminate)
    ltac:(repeat constructor)) as Hthm.
  cbv zeta in Hthm. destruct Hthm as (Htext & _ & _ & Hlang & _).
  split; [exact Htext|exact Hlang].
Defined.

Section StaleTranslation.
Context `{StringCase} `{NumberMinus}.

(** X13 — a translation is not cancelled by a change of topic. When a
    topic is selected while a translation is running, the translation state
    is reset with the rest; but the chunks the translation then still
    receives are written as before, so that once its stream ends the page of
    the new topic shows the translation of the old text, under the label of
    its language. *)
Theorem translation_outlives_topic_change
    (now : Q) (T : jsstring) (app : App)
    (op : TranslateOp) (chunks : list jsstring)
    (Hnonempty : trim T <> [])
    (Hnew : toLowerCase (trim T) <> toLowerCase (currentTopic (state app)))
    (Hrunning : translating op = true)
    (Hchunks : Forall (fun c => startsWith c (js "Error:") = false) chunks)
    (Hsome : chunks <> [])
    (Htext : accumulatedTranslation op ++ concat chunks <> []) :
  let app' := fst (clickWord now T app) in
  let st' := applyEffects
               (snd (translateRun op ((TranslationChunk <$> chunks)
                                        ++ [TranslationEnd])))
               (state app') in
  translatedContent (state app') = None
  /\ translatedLanguage (state app') = None
  /\ isTranslating (state app') = false
  /\ currentTopic st' = trim T
  /\ translatedContent st' = Some (accumulatedTranslation op ++ concat chunks)
  /\ translatedLanguage st' = Some (language op)
  /\ showsTranslatedText st' = true.
Proof.
  cbv zeta. rewrite (clickWord_accepted now T app Hnonempty Hnew).
  cbn [fst state]. rewrite translateRun_app.
  destruct (translateRun_chunks op chunks Hrunning Hchunks) as [Hfst Hsnd].
  destruct (translateRun op (TranslationChunk <$> chunks)) as [op1 es1].
  cbn [fst snd] in Hfst, Hsnd. subst op1.
  cbn [translateRun translateStep translating negb accumulatedTranslation].
  unfold translateFinally. cbn [language snd].
  rewrite app_nil_r, applyEffects_app, Hsnd.
  apply truthy_true in Htext. rewrite Htext.
  unfold showsTranslatedText.
  destruct chunks as [|c chunks]; [done|].
  destruct (accumulatedTranslation op ++ concat (c :: chunks)) as [|x text];
    [done|].
  destruct (state app). cbn. repeat split; reflexivity.
Qed.

End StaleTranslation.

(** ** The theme *)

Lemma themeEffect_post (theme : jsstring) (b : Browser) :
  localStorage (themeEffect theme b) !! js "theme" = Some theme
  /\ (js "dark-mode" ∈ bodyClasses (themeEffect theme b) <-> theme = js "dark")
  /\ prefersDark (themeEffect theme b) = prefersDark b
  /\ (forall k, k <> js "theme" ->
        localStorage (themeEffect theme b) !! k = localStorage b !! k)
  /\ (forall c, c <> js "dark-mode" ->
        c ∈ bodyClasses (themeEffect theme b) <-> c ∈ bodyClasses b).
Proof.
  unfold themeEffect. cbn [localStorage bodyClasses prefersDark].
  split; [apply lookup_insert_eq|].
  split.
  { destruct (decide (theme = js "dark")) as [Hdark|Hdark].
    - split; [done|]. intros _. apply elem_of_union. left.
      by apply elem_of_singleton.
    - split; [|done]. intros Hin. apply elem_of_difference in Hin as [_ Hin].
      exfalso. apply Hin. by apply elem_of_singleton. }
  split; [done|].
  split; [intros k Hk; by apply lookup_insert_ne|].
  intros c Hc. destruct (decide (theme = js "dark")) as [Hdark|Hdark].
  - rewrite elem_of_union, elem_of_singleton. tauto.
  - rewrite elem_of_difference, elem_of_singleton. tauto.
Qed.

Lemma themeEffect_twice (t1 t2 : jsstring) (b : Browser) :
  themeEffect t2 (themeEffect t1 b) = themeEffect t2 b.
Proof.
  unfold themeEffect. cbn [localStorage bodyClasses prefersDark].
  f_equal; [apply insert_insert_eq|].
  apply set_eq. intros c.
  destruct (decide (t2 = js "dark")) as [H2|H2],
           (decide (t1 = js "dark")) as [H1|H1],
           (decide (c = js "dark-mode")) as [Hc|Hc];
    repeat first [ rewrite elem_of_union | rewrite elem_of_difference
                 | rewrite elem_of_singleton ];
    tauto.
Qed.

Lemma themeEffect_stored (theme : jsstring) (b : Browser) :
  localStorage b !! js "theme" = Some theme ->
  (js "dark-mode" ∈ bodyClasses b <-> theme = js "dark") ->
  themeEffect theme b = b.
Proof.
  intros Hstored Hclass. destruct b as [storage dark classes].
  unfold themeEffect. cbn [localStorage bodyClasses prefersDark] in *.
  f_equal; [by apply insert_id|].
  apply set_eq. intros c.
  destruct (decide (theme = js "dark")) as [Hdark|Hdark].
  - apply Hclass in Hdark.
    rewrite elem_of_union, elem_of_singleton.
    split; [intros [->|Hin]; done|tauto].
  - assert (Hout : js "dark-mode" ∉ classes)
      by (intros Hin; by apply Hclass in Hin).
    rewrite elem_of_difference, elem_of_singleton.
    split; [tauto|]. intros Hin. split; [done|]. by intros ->.
Qed.

Lemma initialTheme_truthy (b : Browser) : initialTheme b <> [].
Proof.
  unfold initialTheme.
  destruct (localStorage b !! js "theme") as [saved|];
    [destruct (truthy saved) eqn:Hsaved; [by apply truthy_true|]|];
    by destruct (prefersDark b).
Qed.

Lemma mountTheme_spec (b : Browser) :
  mountTheme b = (initialTheme b, themeEffect (initialTheme b) b).
Proof.
  unfold mountTheme. case_decide as Hlight.
  - by rewrite Hlight.
  - by rewrite themeEffect_twice.
Qed.

Lemma toggleTheme_values (theme : jsstring) :
  (toggleTheme theme = js "light" \/ toggleTheme theme = js "dark")
  /\ toggleTheme theme <> theme /\ toggleTheme theme <> [].
Proof.
  unfold toggleTheme. case_decide as Hlight.
  - subst. repeat split; [by right|done|done].
  - repeat split; [by left|congruence|done].
Qed.

(** After a load and any number of presses the storage holds the theme and
    the body has the dark-mode class exactly for the theme 'dark'. *)
Lemma themeSession_stored (n : nat) (b : Browser) :
  localStorage (snd (themeSession n b)) !! js "theme"
  = Some (fst (themeSession n b))
  /\ (js "dark-mode" ∈ bodyClasses (snd (themeSession n b))
      <-> fst (themeSession n b) = js "dark")
  /\ fst (themeSession n b) <> [].
Proof.
  destruct n as [|n]; cbn [themeSession].
  - rewrite mountTheme_spec. cbn [fst snd].
    destruct (themeEffect_post (initialTheme b) b) as (Hs & Hc & _).
    split; [done|]. split; [done|]. apply initialTheme_truthy.
  - unfold pressThemeToggle. cbn [fst snd].
    destruct (themeEffect_post (toggleTheme (fst (themeSession n b)))
                (snd (themeSession n b))) as (Hs & Hc & _).
    split; [done|]. split; [done|]. apply toggleTheme_values.
Qed.

(** X14 — the theme survives a reload. The first load takes the saved
    theme when there is a non-empty one, whatever the system prefers, and
    the system preference otherwise; and after a load and any number of
    presses of the toggle, loading the page again gives the same theme and
    leaves the storage and the class list exactly as they were. *)
Theorem theme_survives_reload :
  (forall (b : Browser) (saved : jsstring),
     localStorage b !! js "theme" = Some saved -> saved <> [] ->
     fst (mountTheme b) = saved)
  /\ (forall b : Browser,
        localStorage b !! js "theme" = None
        \/ localStorage b !! js "theme" = Some [] ->
        fst (mountTheme b) = if prefersDark b then js "dark" else js "light")
  /\ (forall (b : Browser) (n : nat),
        mountTheme (snd (themeSession n b)) = themeSession n b).
Proof.
  split; [|split].
  - intros b saved Hsaved Hne. rewrite mountTheme_spec. cbn [fst].
    unfold initialTheme. rewrite Hsaved.
    apply truthy_true in Hne. by rewrite Hne.
  - intros b Hnone. rewrite mountTheme_spec. cbn [fst].
    unfold initialTheme. by destruct Hnone as [-> | ->].
  - intros b n. destruct (themeSession_stored n b) as (Hs & Hc & Hne).
    rewrite mountTheme_spec.
    assert (Hinit : initialTheme (snd (themeSession n b)) = fst (themeSession n b)).
    { unfold initialTheme. rewrite Hs.
      apply truthy_true in Hne. by rewrite Hne. }
    rewrite Hinit, (themeEffect_stored _ _ Hs Hc).
    by destruct (themeSession n b).
Qed.

(** X15 — after a load and any number of presses of the toggle, the
    storage holds the theme under the key "theme" and the body carries the
    class "dark-mode" exactly when the theme is 'dark'; nothing else of the
    storage or of the class list is touched. A press always changes the
    theme, to 'light' or 'dark' (to 'light' from a saved value that is
    neither), and from then on two presses bring the theme back. *)
Theorem theme_toggle_invariant (b : Browser) (n : nat) :
  let page := themeSession n b in
  localStorage (snd page) !! js "theme" = Some (fst page)
  /\ (js "dark-mode" ∈ bodyClasses (snd page) <-> fst page = js "dark")
  /\ (forall k, k <> js "theme" ->
        localStorage (snd page) !! k = localStorage b !! k)
  /\ (forall c, c <> js "dark-mode" ->
        c ∈ bodyClasses (snd page) <-> c ∈ bodyClasses b)
  /\ fst (pressThemeToggle page) <> fst page
  /\ (fst (pressThemeToggle page) = js "light"
      \/ fst (pressThemeToggle page) = js "dark")
  /\ (fst page <> js "light" -> fst (pressThemeToggle page) = js "light")
  /\ (0 < n ->
      fst (pressThemeToggle (pressThemeToggle page)) = fst page).
Proof.
  cbv zeta. destruct (themeSession_stored n b) as (Hs & Hc & _).
  split; [done|]. split; [done|].
  split; [|split].
  - induction n as [|n IH]; cbn [themeSession]; intros k Hk.
    + rewrite mountTheme_spec. cbn [snd].
      by apply (themeEffect_post (initialTheme b) b).
    + unfold pressThemeToggle. cbn [snd].
      destruct (themeEffect_post (toggleTheme (fst (themeSession n b)))
                  (snd (themeSession n b))) as (_ & _ & _ & Hkeys & _).
      rewrite Hkeys by done.
      destruct (themeSession_stored n b) as (Hs' & Hc' & _). by apply IH.
  - induction n as [|n IH]; cbn [themeSession]; intros c Hcl.
    + rewrite mountTheme_spec. cbn [snd].
      by apply (themeEffect_post (initialTheme b) b).
    + unfold pressThemeToggle. cbn [snd].
      destruct (themeEffect_post (toggleTheme (fst (themeSession n b)))
                  (snd (themeSession n b))) as (_ & _ & _ & _ & Hclasses).
      rewrite Hclasses by done.
      destruct (themeSession_stored n b) as (Hs' & Hc' & _). by apply IH.
  - unfold pressThemeToggle. cbn [fst].
    destruct (toggleTheme_values (fst (themeSession n b))) as (Hval & Hne & _).
    split; [done|]. split; [done|]. split.
    + intros Hnot. unfold toggleTheme. by rewrite decide_False.
    + intros Hn. destruct n as [|n]; [lia|].
      cbn [themeSession]. unfold pressThemeToggle. cbn [fst].
      destruct (toggleTheme_values (fst (themeSession n b))) as ([-> | ->] & _);
        reflexivity.
Qed.

(** ** A page that stays on its loading skeleton *)

Section Stall.
Context `{StringCase} `{NumberMinus}.

Lemma applyEffects_beside (es : list Effect) (st : AppState) :
  Forall (fun e => besideTheDefinition e = true) es ->
  currentTopic (applyEffects es st) = currentTopic st
  /\ content (applyEffects es st) = content st
  /\ isLoading (applyEffects es st) = isLoading st
  /\ error (applyEffects es st) = error st
  /\ history (applyEffects es st) = history st.
Proof.
  intros Hes. revert st. unfold applyEffects.
  induction Hes as [|e es He _ IH]; intros st; [done|].
  cbn [fold_left].
  destruct (IH (applyEffect st e)) as (-> & -> & -> & -> & ->).
  by destruct st, e.
Qed.

(** While the page is loading without content and the history has fewer
    than two entries, a control calls no setter other than those of the
    target language and of the theme. *)
Lemma controlEffects_loading (st : AppState) (c : Control) :
  isLoading st = true -> content st = [] -> length (history st) <= 1 ->
  Forall (fun e => besideTheDefinitionOnPage e = true) (controlEffects st c).
Proof.
  intros Hload Hcontent Hhistory.
  destruct c as [query| |word|index| |lang| ]; cbn [controlEffects].
  - unfold handleSubmit. rewrite Hload, andb_false_r. constructor.
  - rewrite Hload. constructor.
  - unfold showsContent. rewrite Hcontent. constructor.
  - unfold historyButtons, showsHistorySection.
    destruct (Nat.ltb_spec 1 (length (history st))) as [Hlt|_]; [lia|].
    constructor.
  - unfold pressTranslate, translateButtonDisabled, canTranslate.
    rewrite Hload. constructor.
  - destruct (isTranslating st); repeat constructor.
  - repeat constructor.
Qed.

(** Calls beside the definition leave no call of [handleRandom] pending,
    and their part for [App] is beside the definition. *)
Lemma beside_calls (st : AppState) (calls : list PageEffect) :
  Forall (fun e => besideTheDefinitionOnPage e = true) calls ->
  awaited st calls = []
  /\ Forall (fun e => besideTheDefinition e = true) (appEffects calls)
  /\ Forall (fun e => besideTheDefinitionOnPage e = true) (themeCalls calls).
Proof.
  induction 1 as [|c calls Hc _ (IH1 & IH2 & IH3)]; [by repeat split|].
  unfold awaited, appEffects, themeCalls in *.
  destruct c as [e|f]; cbn [flat_map omap] in *.
  - rewrite IH1. split; [by destruct e|]. split; [|done].
    change (Forall (fun e0 => besideTheDefinition e0 = true)
              (e :: omap (fun c => match c with
                                   | OfApp e0 => Some e0
                                   | SetTheme _ => None
                                   end) calls)).
    by constructor.
  - split; [done|]. split; [done|]. by constructor.
Qed.

(** A press of the theme toggle always changes the theme, so the effect on
    [theme] runs. *)
Lemma setTheme_toggleTheme (themed : jsstring * Browser) :
  setTheme toggleTheme themed = pressThemeToggle themed.
Proof.
  unfold setTheme, pressThemeToggle.
  destruct (toggleTheme_values (fst themed)) as (_ & Hchanged & _).
  by rewrite decide_False.
Qed.

Lemma translateStep_beside (op : TranslateOp) (ev : TranslateEvent) :
  Forall (fun e => besideTheDefinition e = true) (snd (translateStep op ev)).
Proof.
  unfold translateStep, translateCatch, translateFinally.
  destruct (translating op), ev as [chunk| |e]; cbn [negb snd];
    try destruct (startsWith chunk (js "Error:"));
    try destruct (truthy (accumulatedTranslation op));
    cbn [snd app]; repeat constructor.
Qed.

Lemma commit_beside (now : Q) (es : list Effect) (app : App) :
  Forall (fun e => besideTheDefinition e = true) es ->
  commit now es app
  = ({| state := applyEffects es (state app); live := live app;
        stale := stale app |}, es).
Proof.
  intros Hes. apply commit_same_topic.
  by destruct (applyEffects_beside es (state app) Hes) as (-> & _).
Qed.

Lemma OfApp_beside (es : list Effect) :
  Forall (fun e => besideTheDefinition e = true) es ->
  Forall (fun e => besideTheDefinitionOnPage e = true) (OfApp <$> es).
Proof. intros Hes. by apply Forall_fmap. Qed.

(** One event on a stalled page. *)
Lemma pageStep_stalled (now : Q) (e : PageEvent) (pg : Page) :
  stalled pg ->
  let pg' := fst (pageStep now e pg) in
  stalled pg'
  /\ Forall (fun e => besideTheDefinitionOnPage e = true) (snd (pageStep now e pg))
  /\ currentTopic (state (pageApp pg')) = currentTopic (state (pageApp pg))
  /\ error (state (pageApp pg')) = error (state (pageApp pg))
  /\ history (state (pageApp pg')) = history (state (pageApp pg)).
Proof.
  intros (Hload & Hcontent & Hhistory & Hlive & Hstale & Hpending). cbv zeta.
  assert (Hquiet : forall es,
    Forall (fun e => besideTheDefinition e = true) es ->
    forall lv sl th,
      (forall op, lv = Some op -> streaming op = false) ->
      Forall (fun op => isCancelled op = true) sl ->
      stalled {| pageApp := {| state := applyEffects es (state (pageApp pg));
                               live := lv; stale := sl |};
                 pendingRandom := []; pageTheme := th |}
      /\ currentTopic (applyEffects es (state (pageApp pg)))
         = currentTopic (state (pageApp pg))
      /\ error (applyEffects es (state (pageApp pg))) = error (state (pageApp pg))
      /\ history (applyEffects es (state (pageApp pg)))
         = history (state (pageApp pg))).
  { intros es Hes lv sl th Hlv Hsl.
    destruct (applyEffects_beside es (state (pageApp pg)) Hes)
      as (Ht & Hc & Hl & He & Hh).
    unfold stalled. cbn [pageApp pendingRandom state live stale].
    rewrite Hc, Hl, Hh. by repeat split. }
  destruct e as [c|i outcome g|ev|i ev|op ev]; cbn [pageStep].
  - pose proof (controlEffects_loading (state (pageApp pg)) c
                  Hload Hcontent Hhistory) as Hcalls.
    destruct (beside_calls (state (pageApp pg)) _ Hcalls)
      as (Hawaited & Hes & Htheme).
    rewrite (commit_beside now _ (pageApp pg) Hes), Hawaited, Hpending.
    cbn [fst snd app pageApp state].
    destruct (Hquiet _ Hes (live (pageApp pg)) (stale (pageApp pg))
                (themeAfter (controlEffects (state (pageApp pg)) c)
                            (pageTheme pg)) Hlive Hstale)
      as (Hst & Ht & He & Hh).
    split; [exact Hst|]. split; [|done].
    apply Forall_app. split; [by apply OfApp_beside|done].
  - rewrite Hpending, lookup_nil. cbn [fst snd].
    split; [by repeat split|]. by split.
  - unfold onApp, resumeLive. destruct (live (pageApp pg)) as [op|] eqn:Hop.
    + destruct (fetchStep_left now op ev (Hlive op eq_refl))
        as (Hleft & _ & _ & Hes).
      destruct (fetchStep now op ev) as [op' es]. cbn [fst snd state] in *.
      assert (Hes' : Forall (fun e => besideTheDefinition e = true) es)
        by (eapply Forall_impl; [exact Hes|]; by intros []).
      rewrite Hpending.
      destruct (Hquiet _ Hes' (Some op') (stale (pageApp pg)) (pageTheme pg))
        as (Hst & Ht & He & Hh); [by intros ? [= <-]|done|].
      split; [exact Hst|]. split; [by apply OfApp_beside|done].
    + cbn [fst snd]. split; [|by split].
      unfold stalled. cbn [pageApp pendingRandom]. rewrite Hop.
      by repeat split.
  - unfold onApp, resumeStale.
    destruct (stale (pageApp pg) !! i) as [op|] eqn:Hop.
    + assert (Hcancelled : isCancelled op = true)
        by apply (Forall_lookup_1 _ _ _ _ Hstale Hop).
      destruct (fetchStep_cancelled now op ev Hcancelled) as [Hop' Hes].
      destruct (fetchStep now op ev) as [op' es]. cbn [fst snd state] in *.
      subst es. rewrite Hpending.
      destruct (Hquiet [] ltac:(constructor) (live (pageApp pg))
                  (<[i := op']> (stale (pageApp pg))) (pageTheme pg))
        as (Hst & Ht & He & Hh); [done|by apply Forall_insert|].
      split; [exact Hst|]. split; [constructor|done].
    + cbn [fst snd]. split; [|by split].
      unfold stalled. cbn [pageApp pendingRandom]. by repeat split.
  - pose proof (translateStep_beside op ev) as Hes.
    unfold onApp. rewrite (commit_beside now _ (pageApp pg) Hes), Hpending.
    cbn [fst snd].
    destruct (Hquiet _ Hes (live (pageApp pg)) (stale (pageApp pg))
                (pageTheme pg) Hlive Hstale) as (Hst & Ht & He & Hh).
    split; [exact Hst|]. split; [by apply OfApp_beside|done].
Qed.

(** X17 — a stalled page stays stalled. Once the page is loading with no
    content and fewer than two history entries, while no run is in its loop
    any more and no call of [handleRandom] awaits the random-word service,
    nothing that can happen to it ends the loading: whatever controls are
    used (the search form, Random, Translate, the language select, the
    theme toggle; there are no words and no history buttons), whatever the
    runs and any translation still receive, and whatever a late answer of
    the service would be, the page keeps its topic, shows no content, and
    no setter is called other than those of the art, the target language,
    the translation and the theme; in particular no definition and no
    random word is requested. *)
Theorem stalled_page_stays_stalled
    (evs : list (Q * PageEvent)) (pg : Page) (Hstalled : stalled pg) :
  let pg' := fst (pageRun evs pg) in
  let st' := state (pageApp pg') in
  stalled pg'
  /\ Forall (fun e => besideTheDefinitionOnPage e = true) (snd (pageRun evs pg))
  /\ (forall t, OfApp (CallStreamDefinition t) ∉ snd (pageRun evs pg))
  /\ (OfApp CallGetRandomWord ∉ snd (pageRun evs pg))
  /\ isLoading st' = true
  /\ currentTopic st' = currentTopic (state (pageApp pg))
  /\ error st' = error (state (pageApp pg))
  /\ history st' = history (state (pageApp pg))
  /\ showsContent st' = false
  /\ showsNotGenerated st' = false
  /\ canTranslate st' = false
  /\ historyButtons st' = [].
Proof.
  cbv zeta.
  assert (Hrun : stalled (fst (pageRun evs pg))
    /\ Forall (fun e => besideTheDefinitionOnPage e = true) (snd (pageRun evs pg))
    /\ currentTopic (state (pageApp (fst (pageRun evs pg))))
       = currentTopic (state (pageApp pg))
    /\ error (state (pageApp (fst (pageRun evs pg)))) = error (state (pageApp pg))
    /\ history (state (pageApp (fst (pageRun evs pg))))
       = history (state (pageApp pg))).
  { revert pg Hstalled.
    induction evs as [|[now e] evs IH]; intros pg Hstalled.
    - cbn [pageRun fst snd]. split; [exact Hstalled|]. by split.
    - cbn [pageRun].
      destruct (pageStep_stalled now e pg Hstalled)
        as (Hstalled1 & Hes1 & Ht1 & He1 & Hh1).
      destruct (pageStep now e pg) as [pg1 es1]. cbn [fst snd] in *.
      destruct (IH pg1 Hstalled1) as (Hstalled2 & Hes2 & Ht2 & He2 & Hh2).
      destruct (pageRun evs pg1) as [pg2 es2]. cbn [fst snd] in *.
      split; [done|]. split; [by apply Forall_app|].
      split; [congruence|]. split; congruence. }
  destruct Hrun as (Hstalled' & Hes & Ht & He & Hh).
  pose proof Hstalled' as (Hload & Hcontent & Hhistory & _).
  split; [done|]. split; [done|]. split.
  { intros t Hin. rewrite Forall_forall in Hes. by apply Hes in Hin. }
  split.
  { intros Hin. rewrite Forall_forall in Hes. by apply Hes in Hin. }
  split; [done|]. split; [done|]. split; [done|]. split; [done|].
  unfold showsContent, showsNotGenerated, canTranslate, historyButtons,
    showsHistorySection.
  rewrite Hload, Hcontent.
  destruct (Nat.ltb_spec 1
              (length (history (state (pageApp (fst (pageRun evs pg)))))))
    as [Hlt|_]; [lia|].
  by repeat split.
Qed.

End Stall.

(** ** Instances of the properties above *)

Section FurtherExamples.
#[local] Existing Instance basicLatinCase.
#[local] Existing Instance doubleArithmetic.

(** Two chunks of the first run: the page shows both, in order. *)
Lemma stream_chunks_accumulate_witness :
  let op := fst (fetchContentAndArt (js "Hypertext") 0) in
  let chunks := [(700%Q, js "Hypertext is "); (900%Q, js "text with links.")] in
  streaming op = true /\ isCancelled op = false
  /\ content (applyEffects
                (snd (fetchRun op (prod_map id StreamChunk <$> chunks)))
                initialState)
     = js "Hypertext is text with links.".
Proof.
  cbv zeta. split; [reflexivity|]. split; [reflexivity|].
  pose proof (stream_chunks_accumulate
    (fst (fetchContentAndArt (js "Hypertext") 0))
    [(700%Q, js "Hypertext is "); (900%Q, js "text with links.")]
    initialState eq_refl eq_refl ltac:(repeat constructor)) as Hthm.
  cbv zeta in Hthm. destruct Hthm as (_ & _ & _ & _ & _ & Hcontent & _).
  exact (Hcontent ltac:(discriminate)).
Defined.

(** The first run, two chunks and the end of the stream after 1.2 s. *)
Lemma stream_end_outcome_witness :
  let r := {| runTopic := js "Hypertext"; runStart := 0;
              runEvents := [ (700%Q, StreamChunk (js "Hypertext is "));
                             (900%Q, StreamChunk (js "text with links."));
                             (1200%Q, StreamEnd) ] |} in
  let st' := applyEffects (runEffects r) initialState in
  js "Hypertext" <> []
  /\ content st' = js "Hypertext is text with links."
  /\ isLoading st' = false
  /\ generationTime st' = Some 1200%Q
  /\ history st' = [js "Hypertext"].
Proof.
  cbv zeta. split; [discriminate|].
  pose proof (stream_end_outcome initialState (js "Hypertext") 0 1200
    [(700%Q, js "Hypertext is "); (900%Q, js "text with links.")]
    ltac:(discriminate) ltac:(repeat constructor)) as Hthm.
  cbv zeta in Hthm.
  destruct Hthm as (Hcontent & _ & Hload & Htime & Hhistory & _).
  split; [exact Hcontent|]. split; [exact Hload|]. split; [exact Htime|].
  exact Hhistory.
Defined.

(** The stream of the first run throws a value that is no [Error]. *)
Lemma stream_throw_outcome_witness :
  let op := fst (fetchContentAndArt (js "Hypertext") 0) in
  let st' := applyEffects (snd (fetchStep 800 op (StreamThrow OtherValue)))
               initialState in
  streaming op = true /\ isCancelled op = false
  /\ error st' = Some (js "An unknown error occurred")
  /\ showsErrorBox st' = true.
Proof.
  cbv zeta. split; [reflexivity|]. split; [reflexivity|].
  pose proof (stream_throw_outcome 800
    (fst (fetchContentAndArt (js "Hypertext") 0)) OtherValue initialState
    eq_refl eq_refl) as Hthm.
  cbv zeta in Hthm. destruct Hthm as (Herror & _ & _ & _ & _ & Hbox & _).
  split; [exact Herror|exact Hbox].
Defined.

(** After the mount and a click on a word, the run of "Hypertext" is
    cancelled and the live run is the one of the word. *)
Lemma live_run_is_for_current_topic_witness :
  let app := fst (clickWord 500 (js " Entropy ") (mount 0)) in
  reachable app
  /\ (forall op, live app = Some op ->
        opTopic op = js "Entropy" /\ isCancelled op = false)
  /\ Forall (fun op => isCancelled op = true) (stale app).
Proof.
  cbv zeta.
  assert (Happ : reachable (fst (clickWord 500 (js " Entropy ") (mount 0))))
    by (unfold clickWord; apply reachable_commit, reachable_mount).
  split; [exact Happ|].
  destruct (live_run_is_for_current_topic _ Happ) as (Hlive & _ & Hstale).
  split; [exact Hlive|exact Hstale].
Defined.

(** A translation into Spanish is running when "Entropy" is clicked; its
    one chunk arrives afterwards. *)
Lemma translation_outlives_topic_change_witness :
  let op := {| sourceText := js "Hypertext is text."; language := js "Spanish";
               accumulatedTranslation := js ""; translating := true |} in
  let app' := fst (clickWord 500 (js "Entropy") (mount 0)) in
  let st' := applyEffects
               (snd (translateRun op [ TranslationChunk (js "El hipertexto es texto.");
                                       TranslationEnd ]))
               (state app') in
  trim (js "Entropy") <> []
  /\ currentTopic st' = js "Entropy"
  /\ translatedContent st' = Some (js "El hipertexto es texto.")
  /\ translatedLanguage st' = Some (js "Spanish").
Proof.
  cbv zeta. split; [vm_compute; discriminate|].
  pose proof (translation_outlives_topic_change 500 (js "Entropy") (mount 0)
    {| sourceText := js "Hypertext is text."; language := js "Spanish";
       accumulatedTranslation := js ""; translating := true |}
    [js "El hipertexto es texto."]
    ltac:(vm_compute; discriminate) ltac:(vm_compute; discriminate)
    eq_refl ltac:(repeat constructor) ltac:(discriminate)
    ltac:(vm_compute; discriminate)) as Hthm.
  cbv zeta in Hthm.
  destruct Hthm as (_ & _ & _ & Htopic & Htext & Hlang & _).
  split; [exact Htopic|]. split; [exact Htext|exact Hlang].
Defined.

(** The definition of "Balance" has been shown; the service fails and both
    draws are 0, so Random sets the topic "Balance" again: no run starts,
    and the page stays on the loading skeleton whatever the old run still
    receives. *)
Lemma random_press_outcome_witness :
  let zero := {| mantissa := 0; exponent := -1074; inUnitInterval := eq_refl |} in
  let g := {| draws := fun _ => zero; drawn := 0 |} in
  let app := fst (resumeLive 900 StreamEnd
               (fst (resumeLive 700 (StreamChunk (js "Balance is poise."))
                  (fst (clickWord 500 (js "Balance") (mount 0)))))) in
  let app' := fst (pressRandom 2000 (inr OtherValue) g app) in
  content (state app) = js "Balance is poise."
  /\ randomTopic (state app) (inr OtherValue) g = currentTopic (state app)
  /\ live app' = live app
  /\ isLoading (state app') = true
  /\ showsLoadingSkeleton
       (state (fst (resumeLive 2500 (ArtResolved {| art := js "art" |}) app')))
     = true.
Proof.
  cbv zeta.
  pose proof (random_press_outcome 2000 (inr OtherValue)
    {| draws := fun _ => {| mantissa := 0; exponent := -1074;
                            inUnitInterval := eq_refl |};
       drawn := 0 |}
    (fst (resumeLive 900 StreamEnd
       (fst (resumeLive 700 (StreamChunk (js "Balance is poise."))
          (fst (clickWord 500 (js "Balance") (mount 0))))))))
    as Hthm.
  cbv zeta in Hthm. destruct Hthm as ((Hload & _) & _ & Hsame).
  assert (Hword : randomTopic
            (state (fst (resumeLive 900 StreamEnd
               (fst (resumeLive 700 (StreamChunk (js "Balance is poise."))
                  (fst (clickWord 500 (js "Balance") (mount 0)))))))) 
            (inr OtherValue)
            {| draws := fun _ => {| mantissa := 0; exponent := -1074;
                                    inUnitInterval := eq_refl |};
               drawn := 0 |}
          = currentTopic
              (state (fst (resumeLive 900 StreamEnd
                 (fst (resumeLive 700 (StreamChunk (js "Balance is poise."))
                    (fst (clickWord 500 (js "Balance") (mount 0)))))))))
    by (vm_compute; reflexivity).
  destruct (Hsame Hword) as (Hlive & _ & _ & Hstuck).
  split; [vm_compute; reflexivity|]. split; [exact Hword|].
  split; [exact Hlive|]. split; [exact Hload|].
  eapply Hstuck; vm_compute; reflexivity.
Defined.

(** The first stream throws, "Balance" is searched and its definition
    shown; then Random is pressed and the service fails: both draws are 0,
    so "Balance" is set again. The page is stalled, and a search, another
    press of Random, the art of the old run, a press of the first history
    button and a press of the theme toggle leave it so. *)
Lemma stalled_page_stays_stalled_witness :
  let zero := {| mantissa := 0; exponent := -1074; inUnitInterval := eq_refl |} in
  let g := {| draws := fun _ => zero; drawn := 0 |} in
  let browser := {| localStorage := ∅; prefersDark := false; bodyClasses := ∅ |} in
  let shown :=
    fst (pageRun [ (300%Q, LiveRunResumes (StreamThrow OtherValue));
                   (500%Q, Use (SearchForm (js "Balance")));
                   (700%Q, LiveRunResumes (StreamChunk (js "Balance is poise.")));
                   (900%Q, LiveRunResumes StreamEnd) ]
           (mountPage 0 browser)) in
  let pg :=
    fst (pageRun [ (2000%Q, Use RandomButton);
                   (2400%Q, RandomWordAnswers 0 (inr OtherValue) g) ] shown) in
  let evs := [ (3000%Q, Use (SearchForm (js "Entropy")));
               (3100%Q, Use RandomButton);
               (3200%Q, LiveRunResumes (ArtResolved {| art := js "art" |}));
               (3300%Q, Use (HistoryButton 0));
               (3400%Q, Use ThemeToggle) ] in
  content (state (pageApp shown)) = js "Balance is poise."
  /\ history (state (pageApp shown)) = [js "Balance"]
  /\ stalled pg
  /\ stalled (fst (pageRun evs pg))
  /\ currentTopic (state (pageApp (fst (pageRun evs pg)))) = js "Balance".
Proof.
  cbv zeta.
  set (pg := fst (pageRun [ (2000%Q, Use RandomButton); _ ] _)).
  assert (Hstalled : stalled pg).
  { split; [vm_compute; reflexivity|]. split; [vm_compute; reflexivity|].
    split; [vm_compute; lia|]. split; [|split].
    - intros op Hop. vm_compute in Hop. injection Hop as <-. reflexivity.
    - vm_compute. repeat constructor.
    - vm_compute. reflexivity. }
  split; [vm_compute; reflexivity|]. split; [vm_compute; reflexivity|].
  split; [exact Hstalled|].
  destruct (stalled_page_stays_stalled
    [ (3000%Q, Use (SearchForm (js "Entropy")));
      (3100%Q, Use RandomButton);
      (3200%Q, LiveRunResumes (ArtResolved {| art := js "art" |}));
      (3300%Q, Use (HistoryButton 0));
      (3400%Q, Use ThemeToggle) ]
    pg Hstalled) as (Hafter & _ & _ & _ & _ & Htopic & _).
  split; [exact Hafter|]. rewrite Htopic. vm_compute. reflexivity.
Defined.

End FurtherExamples.
